(** * TinyLocalize: the translation store and its key resolver

    A shallow embedding of the core of [magic-translate.tsx]: the
    module-level store ([globalTranslations], [translationMetadata],
    [globalLang], [globalKeys]), the resolver [internalT] with its
    [{{name}}] interpolation, the loader [loadProductionTranslations],
    the start-up clean-up of [initializeTranslations], [saveToStorage],
    [setCurrentLang], and [removeLanguage] of the editor panel (which only
    the second copy of the file has; the functions it calls are the same
    in both copies).

    How the program is read:
    - translation documents are JSON built from objects, strings,
      numbers, booleans and [null]; a string is a sequence of 8-bit
      units, which is all that [split], [\w] and the braces look at;
    - a number is known by the text its [toString] gives, since the
      program prints numbers and tests them for zero, and no more;
    - a plain object is its own properties together with what it
      inherits from [Object.prototype], since the resolver tests
      presence with [in] and reads with [value[k]];
    - [globalTranslations] keeps the order of its keys, which
      [Object.keys] exposes; inside a tree the program only looks keys
      up and counts them, so a tree is a finite map;
    - a [localStorage] slot is known by what [JSON.parse] makes of its
      text; the store is written with [JSON.stringify] and read back
      with [JSON.parse], which return the same document;
    - the [async] loader is followed as one uninterrupted run over its
      four fetches, whose outcomes are given by a function of the
      language code. *)

From Stdlib Require Import ZArith Ascii.
From stdpp Require Import gmap strings list fin_maps.

Set Warnings "-register-all".


(** ** Values

    [any], as [JSON.parse] and [response.json()] produce it.  A number
    is held by the text [Number.prototype.toString] gives for it ([0],
    [-12], [1.5], [1e+21]): that text names the number, up to the sign of
    zero, and printing a number, testing it for zero and passing it
    through [JSON.stringify] and [JSON.parse] is all that is done with
    one here.  Arrays do not occur in translation documents and are left
    out. *)
Inductive Json : Type :=
  | JNull
  | JBool (b : bool)
  | JNum (text : string)
  | JStr (s : string)
  | JObj (fields : gmap string Json).

(** What a property read can yield at run time: besides the data of a
    document, [undefined], and what a plain object inherits from
    [Object.prototype] (the prototype object itself through [__proto__],
    and its native methods). *)
Inductive Value : Type :=
  | VUndefined
  | VJson (j : Json)
  | VObjectPrototype
  | VNative (name : string).

(** The properties every plain object inherits: the own properties of
    [Object.prototype]. *)
Definition object_prototype_names : list string :=
  [ "constructor"; "__defineGetter__"; "__defineSetter__"; "hasOwnProperty";
    "__lookupGetter__"; "__lookupSetter__"; "isPrototypeOf";
    "propertyIsEnumerable"; "toString"; "valueOf"; "__proto__";
    "toLocaleString" ].

Definition inherited_name (k : string) : bool :=
  bool_decide (k ∈ object_prototype_names).

(** [proto[k]] for a name of [object_prototype_names]; [proto_of] is what
    the [__proto__] getter answers for the receiver. *)
Definition prototype_member (proto_of : Value) (k : string) : Value :=
  if bool_decide (k = "__proto__") then proto_of
  else if bool_decide (k = "constructor") then VNative "Object"
  else VNative k.

(** [k in value], for a [value] that is an object. *)
Definition has_property (k : string) (value : Value) : bool :=
  match value with
  | VJson (JObj fields) => bool_decide (is_Some (fields !! k)) || inherited_name k
  | VObjectPrototype => inherited_name k
  | _ => false
  end.

(** [value[k]], for a [value] that is an object. *)
Definition get_property (k : string) (value : Value) : Value :=
  match value with
  | VJson (JObj fields) =>
      match fields !! k with
      | Some j => VJson j
      | None =>
          if inherited_name k then prototype_member VObjectPrototype k
          else VUndefined
      end
  | VObjectPrototype =>
      if inherited_name k then prototype_member (VJson JNull) k
      else VUndefined
  | _ => VUndefined
  end.

(** Truthiness, as [value && ...] tests it. *)
Definition truthy (value : Value) : bool :=
  match value with
  | VUndefined => false
  | VJson JNull => false
  | VJson (JBool b) => b
  | VJson (JNum text) => negb (bool_decide (text = "0"))
  | VJson (JStr s) => negb (bool_decide (s = ""))
  | VJson (JObj _) => true
  | VObjectPrototype => true
  | VNative _ => true
  end.

(** [typeof value === 'object'] *)
Definition typeof_object (value : Value) : bool :=
  match value with
  | VJson JNull => true
  | VJson (JObj _) => true
  | VObjectPrototype => true
  | _ => false
  end.

Definition dquote : string := String "034"%char "".

(** The source text of a native function, in the form V8 prints it (the
    standard fixes the shape [function ... { [native code] }]). *)
Definition native_source (name : string) : string :=
  "function " +:+ name +:+ "() { [native code] }".

(** [value.toString()] for a value that is neither an object nor
    [undefined]/[null]. *)
Definition to_string (value : Value) : string :=
  match value with
  | VJson (JStr s) => s
  | VJson (JNum text) => text
  | VJson (JBool true) => "true"
  | VJson (JBool false) => "false"
  | VNative name => native_source name
  | VObjectPrototype | VJson (JObj _) => "[object Object]"
  | VJson JNull => "null"
  | VUndefined => "undefined"
  end.

(** ** Objects whose key order is observed

    [globalTranslations] is enumerated with [Object.keys], so it is kept
    as the list of its own properties in enumeration order: array-index
    keys first, ascending, then the other keys in insertion order. *)
Definition Store : Type := list (string * gmap string Json).

Definition is_digit (c : ascii) : bool :=
  (48 <=? nat_of_ascii c)%nat && (nat_of_ascii c <=? 57)%nat.

Fixpoint digits_value (acc : N) (s : string) : option N :=
  match s with
  | EmptyString => Some acc
  | String c rest =>
      if is_digit c
      then digits_value (acc * 10 + (N_of_ascii c - 48))%N rest
      else None
  end.

(** A canonical decimal below [2^32 - 1]. *)
Definition array_index (k : string) : option N :=
  match k with
  | EmptyString => None
  | String "0"%char EmptyString => Some 0%N
  | String "0"%char _ => None
  | _ =>
      match digits_value 0 k with
      | Some n => if (n <=? 4294967294)%N then Some n else None
      | None => None
      end
  end.

Fixpoint own_get {A} (k : string) (o : list (string * A)) : option A :=
  match o with
  | [] => None
  | (k', v) :: rest => if bool_decide (k = k') then Some v else own_get k rest
  end.

Definition own_keys {A} (o : list (string * A)) : list string := o.*1.

Fixpoint own_replace {A} (k : string) (v : A) (o : list (string * A))
  : list (string * A) :=
  match o with
  | [] => []
  | (k', v') :: rest =>
      if bool_decide (k = k') then (k, v) :: rest
      else (k', v') :: own_replace k v rest
  end.

Fixpoint insert_index {A} (n : N) (k : string) (v : A) (o : list (string * A))
  : list (string * A) :=
  match o with
  | [] => [(k, v)]
  | (k', v') :: rest =>
      match array_index k' with
      | Some m =>
          if (m <? n)%N then (k', v') :: insert_index n k v rest
          else (k, v) :: o
      | None => (k, v) :: o
      end
  end.

(** A property that is not yet there takes its place in the order. *)
Definition own_add {A} (k : string) (v : A) (o : list (string * A))
  : list (string * A) :=
  match array_index k with
  | Some n => insert_index n k v o
  | None => o ++ [(k, v)]
  end.

(** [o[k] = v] *)
Definition own_set {A} (k : string) (v : A) (o : list (string * A))
  : list (string * A) :=
  match own_get k o with
  | Some _ => own_replace k v o
  | None => own_add k v o
  end.

(** [delete o[k]] *)
Definition own_delete {A} (k : string) (o : list (string * A))
  : list (string * A) :=
  filter (λ kv, kv.1 ≠ k) o.

(** [globalTranslations[lang]]: the own property, else what the store
    object inherits. *)
Definition read_language (lang : string) (store : Store) : Value :=
  match own_get lang store with
  | Some tree => VJson (JObj tree)
  | None =>
      if inherited_name lang then prototype_member VObjectPrototype lang
      else VUndefined
  end.

(** ** Strings *)

(** [key.split('.')]: never empty; an empty key gives one empty segment. *)
Fixpoint split_dot (s : string) : list string :=
  match s with
  | EmptyString => [""]
  | String c rest =>
      if bool_decide (c = "."%char) then "" :: split_dot rest
      else
        match split_dot rest with
        | first :: others => String c first :: others
        | [] => [String c ""]
        end
  end.

(** [\w]: a letter, a digit or the underscore. *)
Definition is_word_char (c : ascii) : bool :=
  let n := nat_of_ascii c in
  ((65 <=? n)%nat && (n <=? 90)%nat) || ((97 <=? n)%nat && (n <=? 122)%nat)
  || is_digit c || bool_decide (n = 95%nat).

(** The longest run of word characters at the head of [s], and what
    follows it. *)
Fixpoint take_word (s : string) : string :=
  match s with
  | String c rest => if is_word_char c then String c (take_word rest) else ""
  | EmptyString => ""
  end.

Fixpoint drop_word (s : string) : string :=
  match s with
  | String c rest => if is_word_char c then drop_word rest else s
  | EmptyString => ""
  end.

(** What follows [prefix] at the head of [s], if [s] begins with it. *)
Fixpoint strip_prefix (prefix s : string) : option string :=
  match prefix with
  | EmptyString => Some s
  | String c prefix' =>
      match s with
      | String d s' => if bool_decide (c = d) then strip_prefix prefix' s' else None
      | EmptyString => None
      end
  end.

(** One attempt of [/\{\{(\w+)\}\}/] at the head of [s]: the captured
    name.  [\w+] is greedy, and giving characters back cannot help, since
    what would then follow the name is a word character and not [}]. *)
Definition match_placeholder (s : string) : option string :=
  match strip_prefix "{{" s with
  | Some t =>
      match take_word t, strip_prefix "}}" (drop_word t) with
      | String c name, Some _ => Some (String c name)
      | _, _ => None
      end
  | None => None
  end.

Definition placeholder (name : string) : string := "{{" +:+ name +:+ "}}".

(** [s.replace(/\{\{(\w+)\}\}/g, replacer)]: the matches are found from
    left to right, each search resuming behind the previous match, and
    every match is exchanged for what [replacer] returns for it, which is
    not scanned again.  [skip] counts the characters of the current match
    still to be passed over. *)
Fixpoint replace_from (replacer : string → string → string) (skip : nat)
    (s : string) : string :=
  match s with
  | EmptyString => ""
  | String c rest =>
      match skip with
      | S n => replace_from replacer n rest
      | O =>
          match match_placeholder s with
          | Some name =>
              replacer (placeholder name) name
              +:+ replace_from replacer (String.length name + 3) rest
          | None => String c (replace_from replacer 0 rest)
          end
      end
  end.

Definition replace_placeholders (replacer : string → string → string)
    (s : string) : string :=
  replace_from replacer 0 s.

(** ** Interpolation variables: [Record<string, string | number>]

    A number is held, as in a document, by the text its [toString]
    gives. *)
Inductive VarValue : Type :=
  | VarStr (s : string)
  | VarNum (text : string).

(** [v.toString()] *)
Definition var_to_string (v : VarValue) : string :=
  match v with
  | VarStr s => s
  | VarNum text => text
  end.

(** [vars[varName]?.toString()]: [None] is [undefined]. *)
Definition read_var (vars : gmap string VarValue) (varName : string)
  : option string :=
  match vars !! varName with
  | Some v => Some (var_to_string v)
  | None =>
      if inherited_name varName
      then Some (to_string (prototype_member VObjectPrototype varName))
      else None
  end.

(** [a || b] on strings: the empty string is falsy. *)
Definition or_else (a b : string) : string :=
  if bool_decide (a = "") then b else a.

(** [(match, varName) => vars[varName]?.toString() || match] *)
Definition interpolation_replacer (vars : gmap string VarValue)
    (matched varName : string) : string :=
  match read_var vars varName with
  | Some text => or_else text matched
  | None => matched
  end.

(** ** The module state *)

Inductive Status : Type := complete | missing | needs_review.

Record Metadata : Type := {
  lastModified : Z;
  characterCount : nat;
  status : Status
}.

(** What a [localStorage] slot holds, by what [JSON.parse] makes of it.
    The slots are written by this module only, with [JSON.stringify] of
    its store or its metadata: a text that parses, but to something else
    ([null], a number, an array), is not among the cases. *)
Inductive Item (A : Type) : Type :=
  | NoItem              (* [getItem] answers [null] *)
  | EmptyItem           (* the empty text *)
  | JsonItem (a : A)    (* a text that parses, to [a] *)
  | BadItem.            (* any other text: [JSON.parse] throws *)
Arguments NoItem {A}.
Arguments EmptyItem {A}.
Arguments JsonItem {A} a.
Arguments BadItem {A}.

Record Storage : Type := {
  magic_translations : Item Store;
  magic_translation_metadata : Item (gmap string (gmap string Metadata));
  magic_lang : option string
}.

Record Config : Type := { enableUI : bool }.

(** The configuration as shipped. *)
Definition MAGIC_CONFIG : Config := {| enableUI := true |}.

Record State : Type := {
  globalTranslations : Store;
  translationMetadata : gmap string (gmap string Metadata);
  globalLang : string;
  globalKeys : gset string;
  localStorage : Storage;
  console : list string;      (* lines of [console.warn] *)
  alerts : list string;       (* texts shown by [alert] *)
  notifications : nat;        (* runs of [notifySubscribers] *)
  pendingLoads : nat          (* calls of the loader not yet run *)
}.

Definition with_translations (t : Store) (s : State) : State :=
  {| globalTranslations := t;
     translationMetadata := translationMetadata s;
     globalLang := globalLang s;
     globalKeys := globalKeys s;
     localStorage := localStorage s;
     console := console s;
     alerts := alerts s;
     notifications := notifications s;
     pendingLoads := pendingLoads s |}.

Definition with_metadata (m : gmap string (gmap string Metadata)) (s : State)
  : State :=
  {| globalTranslations := globalTranslations s;
     translationMetadata := m;
     globalLang := globalLang s;
     globalKeys := globalKeys s;
     localStorage := localStorage s;
     console := console s;
     alerts := alerts s;
     notifications := notifications s;
     pendingLoads := pendingLoads s |}.

Definition with_lang (lang : string) (s : State) : State :=
  {| globalTranslations := globalTranslations s;
     translationMetadata := translationMetadata s;
     globalLang := lang;
     globalKeys := globalKeys s;
     localStorage := localStorage s;
     console := console s;
     alerts := alerts s;
     notifications := notifications s;
     pendingLoads := pendingLoads s |}.

Definition with_keys (keys : gset string) (s : State) : State :=
  {| globalTranslations := globalTranslations s;
     translationMetadata := translationMetadata s;
     globalLang := globalLang s;
     globalKeys := keys;
     localStorage := localStorage s;
     console := console s;
     alerts := alerts s;
     notifications := notifications s;
     pendingLoads := pendingLoads s |}.

Definition with_storage (ls : Storage) (s : State) : State :=
  {| globalTranslations := globalTranslations s;
     translationMetadata := translationMetadata s;
     globalLang := globalLang s;
     globalKeys := globalKeys s;
     localStorage := ls;
     console := console s;
     alerts := alerts s;
     notifications := notifications s;
     pendingLoads := pendingLoads s |}.

Definition warn (line : string) (s : State) : State :=
  {| globalTranslations := globalTranslations s;
     translationMetadata := translationMetadata s;
     globalLang := globalLang s;
     globalKeys := globalKeys s;
     localStorage := localStorage s;
     console := console s ++ [line];
     alerts := alerts s;
     notifications := notifications s;
     pendingLoads := pendingLoads s |}.

Definition alert (text : string) (s : State) : State :=
  {| globalTranslations := globalTranslations s;
     translationMetadata := translationMetadata s;
     globalLang := globalLang s;
     globalKeys := globalKeys s;
     localStorage := localStorage s;
     console := console s;
     alerts := alerts s ++ [text];
     notifications := notifications s;
     pendingLoads := pendingLoads s |}.

(** [subscribers.forEach(callback => callback())]: the callbacks belong
    to the presentation layer; the run is counted. *)
Definition notifySubscribers (s : State) : State :=
  {| globalTranslations := globalTranslations s;
     translationMetadata := translationMetadata s;
     globalLang := globalLang s;
     globalKeys := globalKeys s;
     localStorage := localStorage s;
     console := console s;
     alerts := alerts s;
     notifications := S (notifications s);
     pendingLoads := pendingLoads s |}.

(** ** The resolver *)

(** The loop over [key.split('.')]:
    [if (value && typeof value === 'object' && k in value) value = value[k];
     else { value = undefined; break; }] *)
Fixpoint walk (keys : list string) (value : Value) : Value :=
  match keys with
  | [] => value
  | k :: rest =>
      if truthy value && typeof_object value && has_property k value
      then walk rest (get_property k value)
      else VUndefined
  end.

Definition todo_fallback (key : string) : string :=
  "TODO: Translate " +:+ dquote +:+ key +:+ dquote.

Definition object_fallback (key : string) : string :=
  "[Object: " +:+ key +:+ "]".

Definition object_warning (key : string) : string :=
  "TinyLocalize Warning: Translation key " +:+ dquote +:+ key +:+ dquote
  +:+ " returns an object, not a string. This will cause React errors. Use a more specific key like "
  +:+ dquote +:+ key +:+ ".title" +:+ dquote +:+ " or "
  +:+ dquote +:+ key +:+ ".description" +:+ dquote +:+ ".".

Definition is_nullish (value : Value) : bool :=
  match value with
  | VUndefined | VJson JNull => true
  | _ => false
  end.

(** [typeof value === 'string'] *)
Definition typeof_string (value : Value) : bool :=
  match value with
  | VJson (JStr _) => true
  | _ => false
  end.

Definition internalT (key : string) (vars : gmap string VarValue) (s : State)
  : string * State :=
  let s := with_keys ({[ key ]} ∪ globalKeys s) s in
  let keys := split_dot key in
  let value := walk keys (read_language (globalLang s) (globalTranslations s)) in
  if is_nullish value then (todo_fallback key, s)
  else if typeof_object value then
    (object_fallback key, warn (object_warning key) s)
  else if typeof_string value && (0 <? size vars)%nat then
    (replace_placeholders (interpolation_replacer vars) (to_string value), s)
  else (or_else (to_string value) (todo_fallback key), s).

(** ** Construction, loading and clean-up *)

(** How a call ends: normally, or by an exception that leaves the
    function with the state as it then is. *)
Inductive Completion : Type :=
  | Normal (s : State)
  | Throw (error : string) (s : State).

(** How the evaluation of the module ends. *)
Inductive ModuleLoad : Type :=
  | Loaded (s : State)
  | LoadFailed (error : string).

(** [JSON.parse(localStorage.getItem(slot) || '{}')]; [None] is the
    [SyntaxError] thrown. *)
Definition parse_item {A} (empty_object : A) (item : Item A) : option A :=
  match item with
  | NoItem | EmptyItem => Some empty_object
  | JsonItem a => Some a
  | BadItem => None
  end.

(** [localStorage.getItem('magic-lang') || 'en'] *)
Definition stored_lang (ls : Storage) : string :=
  match magic_lang ls with
  | Some lang => or_else lang "en"
  | None => "en"
  end.

(** The module-level statements that set up the store, in a browser. *)
Definition module_state (cfg : Config) (ls : Storage) : ModuleLoad :=
  let start t m :=
    Loaded {| globalTranslations := t;
              translationMetadata := m;
              globalLang := stored_lang ls;
              globalKeys := ∅;
              localStorage := ls;
              console := [];
              alerts := [];
              notifications := 0;
              pendingLoads := 0 |} in
  if enableUI cfg then
    match parse_item [] (magic_translations ls) with
    | None => LoadFailed "SyntaxError"
    | Some t =>
        match parse_item ∅ (magic_translation_metadata ls) with
        | None => LoadFailed "SyntaxError"
        | Some m => start t m
        end
    end
  else start [] ∅.

(** What [fetch('/locales/<lang>.json')] and [response.json()] come to. *)
Inductive Fetched : Type :=
  | FetchFailed                             (* [fetch] rejects *)
  | NotOk                                   (* [response.ok] is false *)
  | BodyUnreadable                          (* [response.json()] rejects *)
  | Body (prodTranslations : gmap string Json).

Definition languagesToTry : list string := ["en"; "fr"; "es"; "de"].

(** The own enumerable properties a spread [...value] copies, and that
    [Object.keys(value || {})] lists: those of a tree; [undefined], the
    prototype object and native functions have none. *)
Definition enumerable_own (value : Value) : gmap string Json :=
  match value with
  | VJson (JObj fields) => fields
  | _ => ∅
  end.

(** [{ ...a, ...b }]: the entries of [b] win. *)
Definition spread2 (a b : gmap string Json) : gmap string Json := b ∪ a.

(** The body of the loop over [languagesToTry]. *)
Definition load_language (cfg : Config) (source : string → Fetched)
    (store : Store) (lang : string) : Store :=
  match source lang with
  | Body prodTranslations =>
      if enableUI cfg then
        own_set lang
          (spread2 prodTranslations (enumerable_own (read_language lang store)))
          store
      else own_set lang prodTranslations store
  | _ => store
  end.

(** [loadProductionTranslations], run to its end with nothing else
    touching the store between its fetches. *)
Definition loadProductionTranslations (cfg : Config) (source : string → Fetched)
    (s : State) : State :=
  notifySubscribers
    (with_translations
       (foldl (load_language cfg source) (globalTranslations s) languagesToTry)
       s).

(** [saveToStorage] *)
Definition saveToStorage (cfg : Config) (s : State) : State :=
  if negb (enableUI cfg) then s
  else
    with_storage
      {| magic_translations := JsonItem (globalTranslations s);
         magic_translation_metadata := JsonItem (translationMetadata s);
         magic_lang := magic_lang (localStorage s) |}
      s.

(** [Object.keys(globalTranslations[lang] || {}).length > 0] *)
Definition has_entries (store : Store) (lang : string) : bool :=
  (0 <? size (enumerable_own (read_language lang store)))%nat.

(** The callback of [languagesToRemove.forEach]:
    [delete globalTranslations[lang]; delete translationMetadata[lang]]. *)
Definition remove_language_step (s : State) (lang : string) : State :=
  with_metadata (delete lang (translationMetadata s))
    (with_translations (own_delete lang (globalTranslations s)) s).

(** [initializeTranslations] *)
Definition initializeTranslations (cfg : Config) (source : string → Fetched)
    (s : State) : State :=
  let s := loadProductionTranslations cfg source s in
  let loadedLanguages :=
    filter (λ lang, has_entries (globalTranslations s) lang)
           (own_keys (globalTranslations s)) in
  let existingLanguages := own_keys (globalTranslations s) in
  let languagesToRemove :=
    filter (λ lang, lang ∉ loadedLanguages) existingLanguages in
  if (0 <? length languagesToRemove)%nat then
    let s := foldl remove_language_step s languagesToRemove in
    if enableUI cfg then
      with_storage
        {| magic_translations := JsonItem (globalTranslations s);
           magic_translation_metadata := JsonItem (translationMetadata s);
           magic_lang := magic_lang (localStorage s) |}
        s
    else s
  else s.

(** ** Switching and removing languages *)

Definition with_pending (n : nat) (s : State) : State :=
  {| globalTranslations := globalTranslations s;
     translationMetadata := translationMetadata s;
     globalLang := globalLang s;
     globalKeys := globalKeys s;
     localStorage := localStorage s;
     console := console s;
     alerts := alerts s;
     notifications := notifications s;
     pendingLoads := n |}.

(** The callback of [Object.keys(localStorageTranslations).forEach]:
    [globalTranslations[langKey] =
       { ...globalTranslations[langKey], ...localStorageTranslations[langKey] }].
    (For a stored language called [__proto__] the assignment would reach
    the prototype setter; such a store is not followed here.) *)
Definition merge_stored (stored : Store) (store : Store) (langKey : string)
  : Store :=
  own_set langKey
    (spread2 (enumerable_own (read_language langKey store))
             (enumerable_own (read_language langKey stored)))
    store.

(** [setCurrentLang], up to its return.  The loader it calls is [async]
    and touches nothing before its first [await]: its body runs later, as
    a [loadProductionTranslations] of its own, and is counted here as
    pending. *)
Definition setCurrentLang (cfg : Config) (lang : string) (s : State)
  : Completion :=
  let s := with_lang lang s in
  let s :=
    with_storage
      {| magic_translations := magic_translations (localStorage s);
         magic_translation_metadata := magic_translation_metadata (localStorage s);
         magic_lang := Some lang |}
      s in
  let s := with_pending (S (pendingLoads s)) s in
  if enableUI cfg then
    match parse_item [] (magic_translations (localStorage s)) with
    | None => Throw "SyntaxError" s
    | Some localStorageTranslations =>
        let s :=
          with_translations
            (foldl (merge_stored localStorageTranslations)
                   (globalTranslations s)
                   (own_keys localStorageTranslations))
            s in
        Normal (notifySubscribers s)
    end
  else Normal (notifySubscribers s).

Definition last_language_refusal : string :=
  "Cannot remove the last language. At least one language must remain.".

(** [removeLanguage] of the editor panel; [confirmed] is the answer to
    its [confirm] dialog. *)
Definition removeLanguage (cfg : Config) (confirmed : bool)
    (langToRemove : string) (s : State) : Completion :=
  if (length (own_keys (globalTranslations s)) <=? 1)%nat then
    Normal (alert last_language_refusal s)
  else if confirmed then
    let s := with_translations (own_delete langToRemove (globalTranslations s)) s in
    let finish s := Normal (notifySubscribers (saveToStorage cfg s)) in
    if bool_decide (globalLang s = langToRemove) then
      match own_keys (globalTranslations s) with
      | first :: _ =>
          match setCurrentLang cfg first s with
          | Normal s => finish s
          | Throw error s => Throw error s
          end
      | [] => finish s
      end
    else finish s
  else Normal s.

(** ** Notions the properties are stated with *)

(** The node a key path names in a tree, by own properties only: the
    [Leaf] or [Branch] of the data model. *)
Fixpoint tree_lookup (path : list string) (node : Json) : option Json :=
  match path with
  | [] => Some node
  | k :: rest =>
      match node with
      | JObj fields =>
          match fields !! k with
          | Some child => tree_lookup rest child
          | None => None
          end
      | _ => None
      end
  end.

(** The value the resolver's loop ends with. *)
Definition resolved (key : string) (s : State) : Value :=
  walk (split_dot key) (read_language (globalLang s) (globalTranslations s)).

(** A name a placeholder can carry: a non-empty run of word characters. *)
Fixpoint all_word_chars (s : string) : bool :=
  match s with
  | EmptyString => true
  | String c rest => is_word_char c && all_word_chars rest
  end.

Definition is_name (name : string) : bool :=
  negb (bool_decide (name = "")) && all_word_chars name.

(** [{{name}}] occurs in [s]. *)
Definition occurs_in (name s : string) : Prop :=
  ∃ before after, s = before +:+ placeholder name +:+ after.

Definition placeholder_free (literal : string) : Prop :=
  ∀ name, is_name name = true → ¬ occurs_in name literal.

(** A text cut at its placeholders: literal stretches with a placeholder
    between each two. *)
Inductive Template : Type :=
  | TEnd (literal : string)
  | THole (literal name : string) (rest : Template).

Fixpoint render_with (subst : string → string) (t : Template) : string :=
  match t with
  | TEnd literal => literal
  | THole literal name rest => literal +:+ subst name +:+ render_with subst rest
  end.

Definition render (t : Template) : string := render_with placeholder t.

Fixpoint template_names (t : Template) : list string :=
  match t with
  | TEnd _ => []
  | THole _ name rest => name :: template_names rest
  end.

Fixpoint well_cut (t : Template) : Prop :=
  match t with
  | TEnd literal => placeholder_free literal
  | THole literal name rest =>
      placeholder_free literal ∧ is_name name = true ∧ well_cut rest
  end.

Definition first_literal (t : Template) : string :=
  match t with
  | TEnd literal => literal
  | THole literal _ _ => literal
  end.

Definition cons_literal (c : ascii) (t : Template) : Template :=
  match t with
  | TEnd literal => TEnd (String c literal)
  | THole literal name rest => THole (String c literal) name rest
  end.

(** The cut of [s], found the way [replace_from] scans. *)
Fixpoint cut_from (skip : nat) (s : string) : Template :=
  match s with
  | EmptyString => TEnd ""
  | String c rest =>
      match skip with
      | S n => cut_from n rest
      | O =>
          match match_placeholder s with
          | Some name => THole "" name (cut_from (String.length name + 3) rest)
          | None => cons_literal c (cut_from 0 rest)
          end
      end
  end.

(** What can follow a literal stretch: the end of the text, or the
    opening braces of the next placeholder. *)
Definition opens (tail : string) : Prop := tail = "" ∨ ∃ t, tail = "{{" +:+ t.

(** Interpolation as the specification words it: a placeholder whose name
    is a key of [vars] becomes that entry, converted to a string; any
    other placeholder stays. *)
Definition spec_subst (vars : gmap string VarValue) (name : string) : string :=
  match vars !! name with
  | Some v => var_to_string v
  | None => placeholder name
  end.

(** What the code puts in for one placeholder [{{name}}]: its replacer,
    called with the match and the name. *)
Definition replaced (vars : gmap string VarValue) (name : string) : string :=
  interpolation_replacer vars (placeholder name) name.

(** The tree the loader stores for a language whose document it got. *)
Definition loaded_tree (cfg : Config) (prod : gmap string Json)
    (old : option (gmap string Json)) : gmap string Json :=
  if enableUI cfg then spread2 prod (default ∅ old) else prod.

(** The loop of the loader, on the store alone. *)
Definition load_store (cfg : Config) (source : string → Fetched) (store : Store)
  : Store :=
  foldl (load_language cfg source) store languagesToTry.

(** [languagesToRemove] of the clean-up, for a store. *)
Definition languages_to_remove (store : Store) : list string :=
  filter (λ lang, lang ∉ filter (λ lang, has_entries store lang) (own_keys store))
         (own_keys store).

(** A language with at least one top-level key. *)
Definition nonempty_entry (entry : string * gmap string Json) : Prop :=
  0 < size entry.2.

#[global] Instance nonempty_entry_dec entry : Decision (nonempty_entry entry).
Proof. unfold nonempty_entry. apply _. Defined.

(** What has to hold of a store for a further pass of the loader to add
    nothing but empty trees: a fetched language either has its merged
    tree already, or has none and an empty document. *)
Definition settled (cfg : Config) (source : string → Fetched) (store : Store)
    (langs : list string) : Prop :=
  ∀ lang prod, lang ∈ langs → source lang = Body prod →
    (∃ w, own_get lang store = Some w ∧ loaded_tree cfg prod (Some w) = w)
    ∨ (own_get lang store = None ∧ loaded_tree cfg prod None = ∅).

(** What a reconciliation is compared on: both layers, as they are held
    in memory and as they are persisted, and the metadata. *)
Definition store_state (s : State)
  : Store * gmap string (gmap string Metadata) * Storage :=
  (globalTranslations s, translationMetadata s, localStorage s).

(** ** Sample states *)

Definition empty_storage : Storage :=
  {| magic_translations := NoItem;
     magic_translation_metadata := NoItem;
     magic_lang := None |}.

Definition state_of (store : Store) (lang : string) : State :=
  {| globalTranslations := store;
     translationMetadata := ∅;
     globalLang := lang;
     globalKeys := ∅;
     localStorage := empty_storage;
     console := [];
     alerts := [];
     notifications := 0;
     pendingLoads := 0 |}.

Definition en_tree : gmap string Json :=
  {[ "welcome" := JObj {[ "title" := JStr "Hello" ]};
     "greeting" := JStr "Hi, {{name}}!";
     "blank" := JStr "" ]}.

Definition en_state : State := state_of [("en", en_tree)] "en".

(** Leaves with a placeholder named like a method every object inherits. *)
Definition method_tree : gmap string Json :=
  {[ "tip" := JStr "See {{toString}}";
     "mixed" := JStr "Hi {{name}}, {{toString}}" ]}.

Definition method_state : State := state_of [("en", method_tree)] "en".

Definition two_languages : Store :=
  [("en", {[ "a" := JStr "x"; "nav" := JObj {[ "home" := JStr "Start" ]} ]});
   ("fr", {[ "a" := JStr "y" ]})].

Definition fr_metadata : gmap string (gmap string Metadata) :=
  {[ "fr" := {[ "a" := {| lastModified := 0;
                          characterCount := 1;
                          status := complete |} ]} ]}.

(** Two languages, edited and saved, with [en] active. *)
Definition editor_state : State :=
  {| globalTranslations := two_languages;
     translationMetadata := fr_metadata;
     globalLang := "en";
     globalKeys := ∅;
     localStorage :=
       {| magic_translations := JsonItem two_languages;
          magic_translation_metadata := JsonItem fr_metadata;
          magic_lang := Some "en" |};
     console := [];
     alerts := [];
     notifications := 0;
     pendingLoads := 0 |}.

Definition en_base : gmap string Json :=
  {[ "a" := JStr "base";
     "b" := JStr "B";
     "nav" := JObj {[ "home" := JStr "Home"; "about" := JStr "About" ]} ]}.

(** Base documents for the samples: [en.json] is [en_base], [de.json] is
    an empty object, and nothing else is served. *)
Definition sample_source (lang : string) : Fetched :=
  if bool_decide (lang = "en") then Body en_base
  else if bool_decide (lang = "de") then Body ∅
  else NotOk.

(** ** Status of a translation

    [trim], [includes] and [toLowerCase], with the units of a string read
    as the code units below 256. *)

(** White space and line terminators, as [trim] removes them. *)
Definition is_space (c : ascii) : bool :=
  bool_decide (nat_of_ascii c ∈ [9; 10; 11; 12; 13; 32; 160]).

Fixpoint trim_start (s : string) : string :=
  match s with
  | String c rest => if is_space c then trim_start rest else s
  | EmptyString => ""
  end.

Fixpoint trim_end (s : string) : string :=
  match s with
  | String c rest =>
      match trim_end rest with
      | EmptyString => if is_space c then "" else String c ""
      | kept => String c kept
      end
  | EmptyString => ""
  end.

(** [s.trim()] *)
Definition trim (s : string) : string := trim_end (trim_start s).

(** [s.includes(sub)] *)
Fixpoint includes (sub s : string) : bool :=
  match strip_prefix sub s with
  | Some _ => true
  | None =>
      match s with
      | String _ rest => includes sub rest
      | EmptyString => false
      end
  end.

Definition to_lower_char (c : ascii) : ascii :=
  let n := nat_of_ascii c in
  if ((65 <=? n)%nat && (n <=? 90)%nat)
     || ((192 <=? n)%nat && (n <=? 222)%nat && negb (n =? 215)%nat)
  then ascii_of_nat (n + 32)
  else c.

(** [s.toLowerCase()] *)
Fixpoint to_lower (s : string) : string :=
  match s with
  | String c rest => String (to_lower_char c) (to_lower rest)
  | EmptyString => ""
  end.

(** The status rule of [updateTranslationMetadata]:
    [!value || value.trim() === '' ? 'missing' :
     value.includes('TODO:') || value.includes('[') && value.includes(']')
       ? 'needs_review' : 'complete'] *)
Definition translation_status (value : string) : Status :=
  if bool_decide (value = "") || bool_decide (trim value = "") then missing
  else if includes "TODO:" value || (includes "[" value && includes "]" value)
  then needs_review
  else complete.

(** ** Editing

    The editor writes into the store with plain assignments.  The module
    is strict code, so an assignment to a property of a string, number or
    boolean throws a [TypeError].

    An assignment whose target is reached through a property that the
    object only inherits goes to [Object.prototype] or to one of its
    native functions: objects that all objects of the page share, and
    that the state does not hold.  What the call does there (it may
    return, or throw at a property that cannot be written) is not
    followed.  [LeavesStore], [WriteLeaves] and the [None] of
    [updateTranslationMetadata] are therefore no results of the code:
    they mark the inputs at which this description ends, all of them with
    a key segment or a language named like a property of
    [Object.prototype].  The properties of these functions are stated for
    the other inputs, in terms of the key and the language. *)
Inductive Outcome : Type :=
  | Finished (s : State)
  | Raised (error : string) (s : State)
  | LeavesStore.

Inductive PathWrite : Type :=
  | Written (tree : gmap string Json)
  | TypeFails
  | WriteLeaves.

(** [updateTranslationMetadata(key, lang, value)], with [now] for
    [Date.now()]; [None] where the write goes through an inherited
    property (the key [__proto__], a language named like a property of
    [Object.prototype]). *)
Definition updateTranslationMetadata (now : Z) (key lang value : string)
    (metadata : gmap string (gmap string Metadata))
  : option (gmap string (gmap string Metadata)) :=
  let entry := {| lastModified := now;
                  characterCount := String.length value;
                  status := translation_status value |} in
  let record of_lang :=
    if bool_decide (key = "__proto__") && bool_decide (of_lang !! key = None)
    then None
    else Some (<[lang := <[key := entry]> of_lang]> metadata) in
  match metadata !! lang with
  | Some of_lang => record of_lang
  | None => if inherited_name lang then None else record ∅
  end.

(** The loop of [saveEdit] and its last assignment, from the segment [k]
    on, in the object [current]:
    [current[k] = current[k] || {}; current = current[k]] for every
    segment but the last, then [current[k] = editValue]. *)
Fixpoint write_path (k : string) (rest : list string) (editValue : string)
    (current : gmap string Json) : PathWrite :=
  match rest with
  | [] =>
      if bool_decide (k = "__proto__") && bool_decide (current !! k = None)
      then Written current
      else Written (<[k := JStr editValue]> current)
  | k' :: rest' =>
      let descend fields :=
        match write_path k' rest' editValue fields with
        | Written fields' => Written (<[k := JObj fields']> current)
        | failed => failed
        end in
      match current !! k with
      | Some (JObj fields) => descend fields
      | Some child =>
          if truthy (VJson child) then
            if bool_decide (k' = "__proto__") then
              match rest' with
              | [] => Written current
              | _ :: _ => WriteLeaves
              end
            else TypeFails
          else descend ∅
      | None => if inherited_name k then WriteLeaves else descend ∅
      end
  end.

(** [saveEdit], with the component's [editingKey] and [editValue]. *)
Definition saveEdit (cfg : Config) (now : Z) (editingKey : option string)
    (editValue : string) (s : State) : Outcome :=
  match editingKey with
  | None => Finished s
  | Some key =>
      if bool_decide (key = "") then Finished s
      else
        match split_dot key with
        | [] => Finished s
        | k :: rest =>
            let lang := globalLang s in
            match
              match own_get lang (globalTranslations s) with
              | Some tree => Some tree
              | None => if inherited_name lang then None else Some ∅
              end
            with
            | None => LeavesStore
            | Some tree =>
                let store := own_set lang tree (globalTranslations s) in
                match write_path k rest editValue tree with
                | WriteLeaves => LeavesStore
                | TypeFails => Raised "TypeError" (with_translations store s)
                | Written tree' =>
                    match updateTranslationMetadata now key lang editValue
                            (translationMetadata s) with
                    | None => LeavesStore
                    | Some metadata =>
                        Finished
                          (notifySubscribers
                             (saveToStorage cfg
                                (with_metadata metadata
                                   (with_translations
                                      (own_set lang tree' store) s))))
                    end
                end
            end
        end
  end.

(** [addLanguage], with the component's [newLang].  For the name
    [__proto__] the assignment reaches the prototype setter of the store
    and adds no language; what the store inherits from then on is not
    followed. *)
Definition addLanguage (cfg : Config) (newLang : string) (s : State) : Outcome :=
  if bool_decide (trim newLang = "") then Finished s
  else
    let code := to_lower newLang in
    if bool_decide (code = "__proto__")
       && bool_decide (own_get code (globalTranslations s) = None)
    then LeavesStore
    else
      Finished
        (notifySubscribers
           (saveToStorage cfg
              (with_translations (own_set code ∅ (globalTranslations s)) s))).

(** ** What the presentation layer reads *)

Definition getCurrentLang (s : State) : string := globalLang s.

Definition getAvailableLanguages (cfg : Config) (s : State) : list string :=
  let languages := own_keys (globalTranslations s) in
  if negb (enableUI cfg) && (length languages =? 0)%nat
  then ["en"; "fr"; "es"; "de"]
  else languages.

Definition nothing_to_export : string :=
  "No translations to export! Add some languages and translations first.".

(** How [exportTranslations] ends: with the files handed to the browser,
    each by its name and the document written into it, or by the
    [SyntaxError] of [JSON.parse]. *)
Inductive Export : Type :=
  | Exported (files : list (string * gmap string Json)) (s : State)
  | ExportThrows (error : string).

Definition exportTranslations (s : State) : Export :=
  match parse_item [] (magic_translations (localStorage s)) with
  | None => ExportThrows "SyntaxError"
  | Some freshTranslations =>
      let languages := own_keys freshTranslations in
      if (length languages =? 0)%nat then Exported [] (alert nothing_to_export s)
      else
        Exported
          ((λ lang, (lang +:+ ".json",
                     enumerable_own (read_language lang freshTranslations)))
             <$> languages)
          s
  end.

(** [groupName] in [groupedKeys]:
    [parts.length > 1 ? parts[0] : 'ungrouped'] *)
Definition group_name (key : string) : string :=
  match split_dot key with
  | first :: _ :: _ => first
  | _ => "ungrouped"
  end.

(** The callback of [filteredKeys.forEach] in [groupedKeys]; [None] is
    the [TypeError] of calling [push] on something inherited. *)
Definition add_to_group (groups : option (list (string * list string)))
    (key : string) : option (list (string * list string)) :=
  match groups with
  | None => None
  | Some groups =>
      let groupName := group_name key in
      match own_get groupName groups with
      | Some keys => Some (own_set groupName (keys ++ [key]) groups)
      | None =>
          if inherited_name groupName then None
          else Some (own_set groupName [key] groups)
      end
  end.

Definition groupedKeys (filteredKeys : list string)
  : option (list (string * list string)) :=
  foldl add_to_group (Some []) filteredKeys.

(** [displayKeys] of the editor panel, for the keys that pass the search
    and the group selected.  [availableGroups] is the sorted list of the
    group names, of which only the number is used here. *)
Inductive Display : Type :=
  | Shown (keys : list string)
  | ShownInherited              (* [groupedKeys[selectedGroup]] is inherited *)
  | GroupingFails.              (* [groupedKeys] throws *)

Definition displayKeys (filteredKeys : list string) (selectedGroup : string)
  : Display :=
  match groupedKeys filteredKeys with
  | None => GroupingFails
  | Some groups =>
      if (length (own_keys groups) <=? 1)%nat
         || bool_decide (selectedGroup = "all")
      then Shown filteredKeys
      else
        match own_get selectedGroup groups with
        | Some keys => Shown keys
        | None =>
            if inherited_name selectedGroup then ShownInherited else Shown []
        end
  end.

(** The fetch of the document of [lang] ends with a document. *)
Definition fetched_ok (source : string → Fetched) (lang : string) : bool :=
  match source lang with
  | Body _ => true
  | _ => false
  end.

(** ** Notions the further properties are stated with *)

Fixpoint all_spaces (s : string) : bool :=
  match s with
  | String c rest => is_space c && all_spaces rest
  | EmptyString => true
  end.

(** [sub] occurs in [s]. *)
Definition substring_of (sub s : string) : Prop :=
  ∃ before after, s = before +:+ sub +:+ after.

(** [q] leaves the path [p] at some segment: neither is the beginning of
    the other. *)
Fixpoint branches_off (p q : list string) : bool :=
  match p, q with
  | a :: p', b :: q' => if bool_decide (a = b) then branches_off p' q' else true
  | _, _ => false
  end.

(** The tree of a language, empty when the language has none. *)
Definition tree_of (lang : string) (store : Store) : gmap string Json :=
  default ∅ (own_get lang store).

(** A string that is not empty, a number that is not zero, or [true]. *)
Definition truthy_primitive (j : Json) : bool :=
  truthy (VJson j) && negb (typeof_object (VJson j)).

(** No segment of the path is the name of a property objects inherit
    from [Object.prototype]. *)
Definition plain_path (path : list string) : bool :=
  forallb (λ k, negb (inherited_name k)) path.

(** The path continues below a node that is a string other than the
    empty one, a number other than zero, or [true]. *)
Fixpoint runs_under_text (path : list string) (node : Json) : bool :=
  match path with
  | k :: rest =>
      match rest with
      | [] => false
      | _ :: _ =>
          match node with
          | JObj fields =>
              match fields !! k with
              | Some child => truthy_primitive child || runs_under_text rest child
              | None => false
              end
          | _ => false
          end
      end
  | [] => false
  end.

(** The state an outcome ends with; [s] when it has none. *)
Definition state_after (o : Outcome) (s : State) : State :=
  match o with
  | Finished s' | Raised _ s' => s'
  | LeavesStore => s
  end.

(** The state a call ends with, however it ends. *)
Definition completion_state (c : Completion) : State :=
  match c with
  | Normal s | Throw _ s => s
  end.

(** * Properties *)

(** ** Strings and the placeholder pattern *)

#[local] Arguments String.append !_ _ / : simpl nomatch.

Lemma str_app_nil_r (s : string) : s +:+ "" = s.
Proof. induction s as [|c s IH]; simpl; congruence. Qed.

Lemma str_app_assoc (a b c : string) : (a +:+ b) +:+ c = a +:+ (b +:+ c).
Proof. induction a as [|x a IH]; simpl; congruence. Qed.

Lemma take_drop_word (t : string) : take_word t +:+ drop_word t = t.
Proof.
  induction t as [|c t IH]; simpl; [done|].
  destruct (is_word_char c); simpl; congruence.
Qed.

Lemma take_word_all_word (t : string) : all_word_chars (take_word t) = true.
Proof.
  induction t as [|c t IH]; simpl; [done|].
  destruct (is_word_char c) eqn:Hc; simpl; [by rewrite Hc|done].
Qed.

(** A run of word characters followed by [}] is taken whole. *)
Lemma take_word_before_brace (name after : string) :
  all_word_chars name = true →
  take_word (name +:+ String "}"%char after) = name
  ∧ drop_word (name +:+ String "}"%char after) = String "}"%char after.
Proof.
  induction name as [|c name IH]; simpl; [done|].
  intros [Hc Hname]%andb_true_iff. rewrite Hc.
  destruct (IH Hname) as [-> ->]. done.
Qed.

Lemma strip_prefix_Some (prefix s t : string) :
  strip_prefix prefix s = Some t ↔ s = prefix +:+ t.
Proof.
  revert s. induction prefix as [|c prefix IH]; intros s; simpl.
  - split; congruence.
  - destruct s as [|d s]; [done|].
    case_bool_decide as Hcd.
    + subst d. rewrite IH. split; congruence.
    + split; [done|]. congruence.
Qed.

Lemma is_name_inv (name : string) :
  is_name name = true → name ≠ "" ∧ all_word_chars name = true.
Proof.
  unfold is_name. intros [H1 H2]%andb_true_iff. split; [|done].
  by apply negb_true_iff, bool_decide_eq_false in H1.
Qed.

Lemma placeholder_app (name after : string) :
  placeholder name +:+ after = "{{" +:+ name +:+ "}}" +:+ after.
Proof. unfold placeholder. by rewrite !str_app_assoc. Qed.

(** The pattern matches at the head of [s] exactly when [s] begins with
    a placeholder that carries a name. *)
Lemma match_placeholder_here (name after : string) :
  is_name name = true →
  match_placeholder (placeholder name +:+ after) = Some name.
Proof.
  intros [Hne Hall]%is_name_inv. rewrite placeholder_app.
  unfold match_placeholder.
  rewrite (proj2 (strip_prefix_Some "{{" _ (name +:+ "}}" +:+ after)) eq_refl).
  destruct (take_word_before_brace name ("}" +:+ after) Hall) as [Htake Hdrop].
  change (name +:+ "}}" +:+ after) with (name +:+ String "}"%char ("}" +:+ after)).
  rewrite Htake, Hdrop.
  rewrite (proj2 (strip_prefix_Some "}}" (String "}"%char ("}" +:+ after)) after)
             eq_refl).
  by destruct name.
Qed.

Lemma match_placeholder_Some (s name : string) :
  match_placeholder s = Some name →
  is_name name = true ∧ ∃ after, s = placeholder name +:+ after.
Proof.
  unfold match_placeholder.
  destruct (strip_prefix "{{" s) as [t|] eqn:Hopen; [|done].
  apply strip_prefix_Some in Hopen.
  destruct (take_word t) as [|c word] eqn:Hword; [done|].
  destruct (strip_prefix "}}" (drop_word t)) as [after|] eqn:Hclose; [|done].
  apply strip_prefix_Some in Hclose.
  intros [= <-]. split.
  - unfold is_name. rewrite <- Hword, take_word_all_word.
    rewrite Hword. done.
  - exists after. rewrite placeholder_app, Hopen.
    by rewrite <- (take_drop_word t), Hword, Hclose.
Qed.

Section replace.
Variable replacer : string → string → string.

Lemma replace_from_skip (passed rest : string) :
replace_from replacer (String.length passed) (passed +:+ rest)
= replace_from replacer 0 rest.
Proof. induction passed as [|c passed IH]; simpl; done. Qed.

(** At a placeholder the scan puts the replacement and resumes behind
  the closing braces. *)
Lemma replace_at_placeholder (name after : string) :
is_name name = true →
replace_from replacer 0 (placeholder name +:+ after)
= replacer (placeholder name) name +:+ replace_from replacer 0 after.
Proof.
intros Hname.
pose proof (match_placeholder_here name after Hname) as Hmatch.
rewrite placeholder_app in *.
change ("{{" +:+ name +:+ "}}" +:+ after)
  with (String "{"%char ("{" +:+ name +:+ "}}" +:+ after)) in *.
cbn [replace_from]. rewrite Hmatch. f_equal.
rewrite <- (replace_from_skip ("{" +:+ name +:+ "}}") after).
rewrite !str_app_assoc. f_equal.
change ("{" +:+ name +:+ "}}") with (String "{"%char (name +:+ "}}")).
cbn [String.length]. f_equal.
clear. induction name as [|c name IH]; simpl; [done|]. by rewrite IH.
Qed.
End replace.

Lemma str_app_length (a b : string) :
  String.length (a +:+ b) = String.length a + String.length b.
Proof. induction a as [|c a IH]; simpl; [done|]. by rewrite IH. Qed.

Lemma is_word_char_brace : is_word_char "{"%char = false.
Proof. reflexivity. Qed.

(** A name and its closing braces cannot begin inside a literal stretch
    and end beyond it. *)
Lemma no_straddle (name literal tail after : string) :
  all_word_chars name = true →
  opens tail →
  literal +:+ tail = name +:+ "}}" +:+ after →
  ∃ literal', literal = name +:+ "}}" +:+ literal'.
Proof.
  intros Hname Htail. revert literal.
  induction name as [|a name IH]; intros literal Heq.
  - destruct literal as [|x [|y literal]].
    + destruct Htail as [->|[t ->]]; discriminate Heq.
    + injection Heq as -> Heq.
      destruct Htail as [->|[t ->]]; discriminate Heq.
    + injection Heq as -> -> Heq. by exists literal.
  - apply andb_true_iff in Hname as [Ha Hname].
    destruct literal as [|x literal].
    + destruct Htail as [->|[t ->]]; [discriminate Heq|].
      injection Heq as <- _. by rewrite is_word_char_brace in Ha.
    + injection Heq as -> Heq.
      destruct (IH Hname literal Heq) as [literal' ->]. by exists literal'.
Qed.

Lemma placeholder_free_tail (c : ascii) (literal : string) :
  placeholder_free (String c literal) → placeholder_free literal.
Proof.
  intros Hfree name Hname (before & after & ->).
  apply (Hfree name Hname). by exists (String c before), after.
Qed.

Lemma placeholder_free_empty : placeholder_free "".
Proof.
  intros name _ (before & after & Heq).
  destruct before; discriminate Heq.
Qed.

(** No match begins inside a literal stretch. *)
Lemma no_match_in_literal (c : ascii) (literal tail : string) :
  placeholder_free (String c literal) →
  opens tail →
  match_placeholder (String c literal +:+ tail) = None.
Proof.
  intros Hfree Htail.
  destruct (match_placeholder _) as [name|] eqn:Hmatch; [exfalso|done].
  apply match_placeholder_Some in Hmatch as (Hname & after & Heq).
  rewrite placeholder_app in Heq. injection Heq as -> Heq.
  destruct (is_name_inv _ Hname) as [Hne Hall].
  destruct literal as [|c' literal].
  - destruct Htail as [->|[t ->]]; [discriminate Heq|].
    injection Heq as Heq. destruct name as [|a name]; [done|].
    injection Heq as <- _. apply andb_true_iff in Hall as [Hbrace _].
    by rewrite is_word_char_brace in Hbrace.
  - injection Heq as -> Heq.
    destruct (no_straddle _ _ _ _ Hall Htail Heq) as [literal' ->].
    apply (Hfree name Hname). exists "", literal'.
    by rewrite placeholder_app.
Qed.

Section replace_templates.
Variable replacer : string → string → string.

(** A literal stretch is copied as it is. *)
Lemma replace_literal (literal tail : string) :
placeholder_free literal →
opens tail →
replace_from replacer 0 (literal +:+ tail)
= literal +:+ replace_from replacer 0 tail.
Proof.
intros Hfree Htail. induction literal as [|c literal IH]; [done|].
pose proof (no_match_in_literal c literal tail Hfree Htail) as Hnone.
change (String c literal +:+ tail) with (String c (literal +:+ tail)) in *.
cbn [replace_from]. rewrite Hnone.
rewrite IH by (by eapply placeholder_free_tail). done.
Qed.

(** The global replacement, on a text given by its cut: every
  placeholder is exchanged for what the replacer returns for it, and
  the literal stretches stay. *)
Lemma replace_render (t : Template) :
well_cut t →
replace_placeholders replacer (render t)
= render_with (λ name, replacer (placeholder name) name) t.
Proof.
unfold replace_placeholders, render.
induction t as [literal|literal name rest IH]; cbn [render_with well_cut].
- intros Hfree. rewrite <- (str_app_nil_r literal) at 1.
  rewrite replace_literal; [|done|by left].
  cbn [replace_from]. by rewrite str_app_nil_r.
- intros (Hfree & Hname & Hrest).
  rewrite replace_literal; [|done|].
  + by rewrite replace_at_placeholder, IH.
  + right. eexists. by rewrite placeholder_app.
Qed.
End replace_templates.

(** ** Every text has a cut *)

Lemma render_cons_literal (c : ascii) (t : Template) :
  render (cons_literal c t) = String c (render t).
Proof. by destruct t. Qed.

Lemma cut_from_skip (passed rest : string) :
  cut_from (String.length passed) (passed +:+ rest) = cut_from 0 rest.
Proof. induction passed as [|c passed IH]; simpl; done. Qed.

Lemma render_first_literal (t : Template) :
  ∃ more, render t = first_literal t +:+ more.
Proof.
  destruct t as [literal|literal name rest]; simpl.
  - exists "". by rewrite str_app_nil_r.
  - by eexists.
Qed.

Lemma well_cut_first_literal (t : Template) :
  well_cut t → placeholder_free (first_literal t).
Proof. destruct t; simpl; tauto. Qed.

Lemma well_cut_cons_literal (c : ascii) (t : Template) :
  well_cut t →
  match_placeholder (String c (render t)) = None →
  well_cut (cons_literal c t).
Proof.
  intros Hcut Hnone.
  assert (placeholder_free (String c (first_literal t))) as Hfree.
  { intros name Hname (before & after & Heq).
    destruct before as [|c' before].
    - destruct (render_first_literal t) as [more Hmore].
      rewrite Hmore in Hnone.
      change (String c (first_literal t +:+ more))
        with (String c (first_literal t) +:+ more) in Hnone.
      rewrite Heq in Hnone.
      change ("" +:+ placeholder name +:+ after)
        with (placeholder name +:+ after) in Hnone.
      rewrite str_app_assoc, match_placeholder_here in Hnone; done.
    - injection Heq as -> Heq.
      apply (well_cut_first_literal t Hcut name Hname). by exists before, after. }
  destruct t; simpl in *; tauto.
Qed.

Lemma cut_from_spec (n : nat) (s : string) :
  String.length s ≤ n → render (cut_from 0 s) = s ∧ well_cut (cut_from 0 s).
Proof.
  revert s. induction n as [|n IH]; intros s Hlen.
  - destruct s; [|simpl in Hlen; lia]. split; [done|apply placeholder_free_empty].
  - destruct s as [|c rest]; [split; [done|apply placeholder_free_empty]|].
    simpl in Hlen. cbn [cut_from].
    destruct (match_placeholder (String c rest)) as [name|] eqn:Hmatch.
    + destruct (match_placeholder_Some _ _ Hmatch) as (Hname & after & Heq).
      rewrite placeholder_app in Heq. injection Heq as -> ->.
      assert (∀ x, x = "{" +:+ name +:+ "}}" +:+ after →
                   cut_from (String.length name + 3) x = cut_from 0 after)
        as Hskip.
      { intros x ->. rewrite <- (cut_from_skip ("{" +:+ name +:+ "}}") after).
        rewrite !str_app_assoc. f_equal.
        change ("{" +:+ name +:+ "}}") with (String "{"%char (name +:+ "}}")).
        cbn [String.length]. rewrite str_app_length. simpl. lia. }
      rewrite (Hskip (String "{"%char (name +:+ String "}"%char (String "}"%char after)))
                     eq_refl).
      destruct (IH after) as [Hrender Hcut].
      { cbn [String.length] in Hlen. rewrite str_app_length in Hlen.
        cbn [String.length] in Hlen. lia. }
      split.
      * unfold render in *. cbn [render_with]. rewrite Hrender.
        by rewrite placeholder_app.
      * simpl. split; [apply placeholder_free_empty|]. done.
    + destruct (IH rest) as [Hrender Hcut]; [lia|]. split.
      * by rewrite render_cons_literal, Hrender.
      * apply well_cut_cons_literal; [done|]. by rewrite Hrender.
Qed.

(** Every text is the rendering of a well-formed cut. *)
Lemma cut_exists (s : string) : render (cut_from 0 s) = s ∧ well_cut (cut_from 0 s).
Proof. by apply (cut_from_spec (String.length s)). Qed.


(** ** The resolver *)

Lemma walk_tree_lookup (path : list string) (node j : Json) :
  tree_lookup path node = Some j → walk path (VJson node) = VJson j.
Proof.
  revert node. induction path as [|k rest IH]; intros node Hnode.
  - simpl in Hnode. by inversion Hnode.
  - simpl in Hnode. destruct node as [| | | |fields]; try discriminate.
    destruct (fields !! k) as [child|] eqn:Hk; [|discriminate].
    cbn [walk truthy typeof_object has_property get_property].
    rewrite Hk. rewrite bool_decide_eq_true_2 by eauto.
    cbn. by apply IH.
Qed.

Lemma read_language_own (lang : string) (store : Store) (tree : gmap string Json) :
  own_get lang store = Some tree → read_language lang store = VJson (JObj tree).
Proof. intros H. unfold read_language. by rewrite H. Qed.

Lemma resolved_node (s : State) (key : string) (tree : gmap string Json) (j : Json) :
  own_get (globalLang s) (globalTranslations s) = Some tree →
  tree_lookup (split_dot key) (JObj tree) = Some j →
  resolved key s = VJson j.
Proof.
  intros Hlang Hnode. unfold resolved.
  rewrite (read_language_own _ _ _ Hlang). by apply walk_tree_lookup.
Qed.

(** [internalT] in terms of the value its loop ends with. *)
Lemma internalT_result (key : string) (vars : gmap string VarValue) (s : State) :
  (internalT key vars s).1 =
    if is_nullish (resolved key s) then todo_fallback key
    else if typeof_object (resolved key s) then object_fallback key
    else if typeof_string (resolved key s) && (0 <? size vars)%nat then
      replace_placeholders (interpolation_replacer vars) (to_string (resolved key s))
    else or_else (to_string (resolved key s)) (todo_fallback key).
Proof.
  unfold internalT, resolved. cbn [globalLang globalTranslations with_keys].
  repeat case_match; reflexivity.
Qed.

(** Every call registers its key. *)
Lemma internalT_registers (key : string) (vars : gmap string VarValue) (s : State) :
  key ∈ globalKeys (internalT key vars s).2
  ∧ globalKeys s ⊆ globalKeys (internalT key vars s).2.
Proof.
  unfold internalT. cbn [globalLang globalTranslations with_keys].
  repeat case_match; cbn; set_solver.
Qed.

(** C1 as the specification words it fails for the empty string: the
    leaf [blank] holds [""], and the resolver answers the fallback. *)
Lemma internalT_empty_leaf_counterexample :
  ¬ (∀ (s : State) (key : string) (tree : gmap string Json) (text : string),
       own_get (globalLang s) (globalTranslations s) = Some tree →
       tree_lookup (split_dot key) (JObj tree) = Some (JStr text) →
       (internalT key ∅ s).1 = text).
Proof.
  intros H.
  specialize (H en_state "blank" en_tree "" eq_refl eq_refl).
  vm_compute in H. discriminate H.
Qed.

(** C1 (amended): for every store and key whose path names a leaf holding
    a non-empty string, [internalT] called without interpolation
    variables returns that string unchanged; a leaf holding the empty
    string is answered with the fallback [TODO: Translate "<key>"]. *)
Theorem internalT_leaf (s : State) (key : string) (tree : gmap string Json)
    (text : string) :
  own_get (globalLang s) (globalTranslations s) = Some tree →
  tree_lookup (split_dot key) (JObj tree) = Some (JStr text) →
  (text ≠ "" → (internalT key ∅ s).1 = text)
  ∧ (text = "" → (internalT key ∅ s).1 = todo_fallback key).
Proof.
  intros Hlang Hnode.
  rewrite internalT_result, (resolved_node _ _ _ _ Hlang Hnode).
  cbn. unfold or_else. split; intros Htext.
  - by rewrite bool_decide_eq_false_2.
  - by rewrite bool_decide_eq_true_2.
Qed.

Lemma internalT_leaf_witness :
  (internalT "welcome.title" ∅ en_state).1 = "Hello"
  ∧ (internalT "blank" ∅ en_state).1 = todo_fallback "blank".
Proof.
  split.
  - apply (internalT_leaf en_state "welcome.title" en_tree "Hello");
      [reflexivity | reflexivity | discriminate].
  - apply (internalT_leaf en_state "blank" en_tree "");
      reflexivity.
Defined.

Lemma split_dot_cons (key : string) : ∃ k rest, split_dot key = k :: rest.
Proof.
  induction key as [|c key IH]; simpl; [by eauto|].
  case_bool_decide; [by eauto|].
  destruct IH as (k & rest & ->). by eauto.
Qed.

(** A path that names no node of the tree, and none of whose segments is
    a property inherited from [Object.prototype], ends in [undefined]. *)
Lemma walk_miss (path : list string) (node : Json) :
  tree_lookup path node = None →
  Forall (λ k, inherited_name k = false) path →
  walk path (VJson node) = VUndefined.
Proof.
  revert node. induction path as [|k rest IH]; intros node Hnode Hpath.
  - discriminate Hnode.
  - inversion Hpath as [|? ? Hk Hrest]; subst. simpl in Hnode.
    destruct node as [|b|n|t|fields]; cbn [walk truthy typeof_object]; try done.
    + by destruct b.
    + by rewrite andb_false_r.
    + by rewrite andb_false_r.
    + cbn [has_property get_property].
      destruct (fields !! k) as [child|] eqn:Hchild.
      * rewrite bool_decide_eq_true_2 by eauto. cbn. by apply IH.
      * rewrite Hk, bool_decide_eq_false_2; [done|].
        intros [? ?]; congruence.
Qed.

(** The part of C2 that holds of the code: a key absent from the tree of
    the active language, with no segment named like an inherited
    property, gets the fallback. *)
Lemma internalT_miss (s : State) (key : string) (vars : gmap string VarValue)
    (tree : gmap string Json) :
  own_get (globalLang s) (globalTranslations s) = Some tree →
  tree_lookup (split_dot key) (JObj tree) = None →
  Forall (λ k, inherited_name k = false) (split_dot key) →
  (internalT key vars s).1 = todo_fallback key.
Proof.
  intros Hlang Hnode Hpath. rewrite internalT_result. unfold resolved.
  rewrite (read_language_own _ _ _ Hlang), (walk_miss _ _ Hnode Hpath).
  reflexivity.
Qed.

(** The part of C10 that holds of the code: with an active language that
    has no tree and is not called [__proto__], every key gets the
    fallback. *)
Lemma internalT_unknown_language (s : State) (key : string)
    (vars : gmap string VarValue) :
  own_get (globalLang s) (globalTranslations s) = None →
  globalLang s ≠ "__proto__" →
  (internalT key vars s).1 = todo_fallback key.
Proof.
  intros Hlang Hproto. rewrite internalT_result. unfold resolved, read_language.
  rewrite Hlang. destruct (split_dot_cons key) as (k & rest & ->).
  destruct (inherited_name (globalLang s)); [|done].
  unfold prototype_member. rewrite bool_decide_eq_false_2 by done.
  by case_bool_decide.
Qed.

(** A top-level key that is not in the tree and is named like a method
    of [Object.prototype] is answered with the source text of that
    method. *)
Lemma internalT_inherited_method (s : State) (key : string)
    (vars : gmap string VarValue) (tree : gmap string Json) :
  own_get (globalLang s) (globalTranslations s) = Some tree →
  tree !! key = None →
  key ∈ object_prototype_names →
  key ≠ "__proto__" →
  (internalT key vars s).1
  = native_source (if bool_decide (key = "constructor") then "Object" else key).
Proof.
  intros Hlang Hkey Hin Hproto. rewrite internalT_result. unfold resolved.
  rewrite (read_language_own _ _ _ Hlang).
  assert (split_dot key = [key]) as ->.
  { unfold object_prototype_names in Hin.
    repeat (apply elem_of_cons in Hin as [->|Hin]; [reflexivity|]).
    by apply elem_of_nil in Hin. }
  assert (inherited_name key = true) as Hinh by (by apply bool_decide_eq_true_2).
  cbn [walk truthy typeof_object andb].
  unfold has_property, get_property. rewrite Hkey, Hinh.
  rewrite bool_decide_eq_false_2 by (by intros [? ?]).
  cbn [orb]. unfold prototype_member.
  rewrite (bool_decide_eq_false_2 _ Hproto).
  by case_bool_decide.
Qed.

(** C2, at an input where the code departs from it: the key [toString]
    names no node of the tree, yet the resolver finds the method every
    object inherits and returns its source text instead of the fallback
    (the key is registered all the same). *)
Theorem internalT_inherited_key :
  tree_lookup (split_dot "toString") (JObj en_tree) = None
  ∧ (internalT "toString" ∅ en_state).1 = native_source "toString"
  ∧ (internalT "toString" ∅ en_state).1 ≠ todo_fallback "toString"
  ∧ "toString" ∈ globalKeys (internalT "toString" ∅ en_state).2.
Proof.
  split; [reflexivity|]. split; [reflexivity|]. split.
  - vm_compute. discriminate.
  - exact (proj1 (internalT_registers "toString" ∅ en_state)).
Qed.



(** ** Interpolation *)

Lemma render_with_ext (f g : string → string) (t : Template) :
  Forall (λ name, f name = g name) (template_names t) →
  render_with f t = render_with g t.
Proof.
  induction t as [literal|literal name rest IH]; cbn [render_with template_names];
    [done|].
  intros [Hname Hrest]%Forall_cons. by rewrite Hname, IH.
Qed.

Lemma well_cut_names (t : Template) :
  well_cut t → Forall (λ name, is_name name = true) (template_names t).
Proof.
  induction t as [literal|literal name rest IH]; cbn [well_cut template_names].
  - by constructor.
  - intros (_ & Hname & Hrest). constructor; auto.
Qed.

Lemma template_name_occurs (t : Template) (name : string) :
  name ∈ template_names t → occurs_in name (render t).
Proof.
  unfold render.
  induction t as [literal|literal name' rest IH]; cbn [render_with template_names].
  - by intros ?%elem_of_nil.
  - intros [->|Hin]%elem_of_cons.
    + by exists literal, (render_with placeholder rest).
    + destruct (IH Hin) as (before & after & ->).
      exists (literal +:+ placeholder name' +:+ before), after.
      by rewrite !str_app_assoc.
Qed.

Lemma internalT_string_leaf (s : State) (key : string)
    (vars : gmap string VarValue) (tree : gmap string Json) (text : string) :
  own_get (globalLang s) (globalTranslations s) = Some tree →
  tree_lookup (split_dot key) (JObj tree) = Some (JStr text) →
  vars ≠ ∅ →
  (internalT key vars s).1
  = replace_placeholders (interpolation_replacer vars) text.
Proof.
  intros Hlang Hnode Hvars.
  rewrite internalT_result, (resolved_node _ _ _ _ Hlang Hnode).
  apply map_size_non_empty_iff in Hvars. cbn.
  destruct (size vars); [done|]. reflexivity.
Qed.

(** C4 as the specification words it fails for an entry whose text is
    empty: with [name] bound to [""], [Hi, {{name}}!] keeps its
    placeholder where the specification has [Hi, !]. *)
Lemma interpolation_empty_entry_counterexample :
  ¬ (∀ (s : State) (key : string) (vars : gmap string VarValue)
       (tree : gmap string Json) (t : Template),
       own_get (globalLang s) (globalTranslations s) = Some tree →
       tree_lookup (split_dot key) (JObj tree) = Some (JStr (render t)) →
       well_cut t →
       vars ≠ ∅ →
       (internalT key vars s).1 = render_with (spec_subst vars) t).
Proof.
  intros H.
  specialize (H en_state "greeting" {[ "name" := VarStr "" ]} en_tree
                (cut_from 0 "Hi, {{name}}!") eq_refl eq_refl
                (proj2 (cut_exists _)) (map_non_empty_singleton _ _)).
  vm_compute in H. discriminate H.
Qed.

(** C4 (amended): for every leaf string and every non-empty variable map,
    with the leaf cut at its placeholders [{{name}}] ([name] a non-empty
    run of letters, digits and underscores), [internalT] answers the leaf
    with each placeholder replaced on its own: by the text of its entry,
    for a name that is a key of the map with a non-empty text; by itself,
    braces included, for a name that is a key with an empty text, and for
    a name that is no key of the map and not the name of a property
    objects inherit.  This holds of each occurrence whatever else the
    leaf holds.  Every leaf string has such a cut. *)
Theorem internalT_interpolates (s : State) (key : string)
    (vars : gmap string VarValue) (tree : gmap string Json) (t : Template) :
  own_get (globalLang s) (globalTranslations s) = Some tree →
  tree_lookup (split_dot key) (JObj tree) = Some (JStr (render t)) →
  well_cut t →
  vars ≠ ∅ →
  (internalT key vars s).1 = render_with (replaced vars) t
  ∧ (∀ name v, vars !! name = Some v → var_to_string v ≠ "" →
       replaced vars name = var_to_string v)
  ∧ (∀ name v, vars !! name = Some v → var_to_string v = "" →
       replaced vars name = placeholder name)
  ∧ (∀ name, vars !! name = None → inherited_name name = false →
       replaced vars name = placeholder name)
  ∧ (∀ text : string, ∃ t', well_cut t' ∧ render t' = text).
Proof.
  intros Hlang Hnode Hcut Hvars. split; [|split; [|split; [|split]]].
  - rewrite (internalT_string_leaf _ _ _ _ _ Hlang Hnode Hvars).
    by rewrite (replace_render _ _ Hcut).
  - intros name v Hv Htext.
    unfold replaced, interpolation_replacer, read_var, or_else.
    by rewrite Hv, bool_decide_eq_false_2.
  - intros name v Hv Htext.
    unfold replaced, interpolation_replacer, read_var, or_else.
    by rewrite Hv, bool_decide_eq_true_2.
  - intros name Hnone Hname.
    unfold replaced, interpolation_replacer, read_var.
    by rewrite Hnone, Hname.
  - intros text. exists (cut_from 0 text).
    destruct (cut_exists text). by split.
Qed.

Lemma internalT_interpolates_witness :
  (internalT "mixed" {[ "name" := VarStr "Sam" ]} method_state).1
  = "Hi Sam, " +:+ native_source "toString".
Proof.
  etrans.
  - exact (proj1 (internalT_interpolates method_state "mixed"
                    {[ "name" := VarStr "Sam" ]} method_tree
                    (cut_from 0 "Hi {{name}}, {{toString}}") eq_refl eq_refl
                    (proj2 (cut_exists _)) (map_non_empty_singleton _ _))).
  - vm_compute. reflexivity.
Defined.

(** The two paths of the resolver, without variables and with variables
    that match nothing, compared on every leaf at once: the comparison
    fails for the empty leaf. *)
Lemma empty_vars_empty_leaf_counterexample :
  ¬ (∀ (s : State) (key : string) (vars : gmap string VarValue)
       (tree : gmap string Json) (text : string),
       own_get (globalLang s) (globalTranslations s) = Some tree →
       tree_lookup (split_dot key) (JObj tree) = Some (JStr text) →
       vars ≠ ∅ →
       (∀ name, is_name name = true → occurs_in name text →
                vars !! name = None) →
       (internalT key ∅ s).1 = (internalT key vars s).1).
Proof.
  intros H.
  specialize (H en_state "blank" {[ "name" := VarStr "Sam" ]} en_tree ""
                eq_refl eq_refl (map_non_empty_singleton _ _)).
  assert ((internalT "blank" ∅ en_state).1
          = (internalT "blank" {[ "name" := VarStr "Sam" ]} en_state).1) as Heq.
  { apply H. intros name _ (before & after & Heq).
    destruct before; discriminate Heq. }
  vm_compute in Heq. discriminate Heq.
Qed.

(** Where the two paths agree: on a leaf that holds a non-empty string,
    with variables that match nothing in it (no placeholder of the leaf
    is a key of the map, nor named like a property objects inherit), both
    answer the leaf unchanged. *)
Lemma internalT_empty_vars_noop (s : State) (key : string)
    (vars : gmap string VarValue) (tree : gmap string Json) (text : string) :
  own_get (globalLang s) (globalTranslations s) = Some tree →
  tree_lookup (split_dot key) (JObj tree) = Some (JStr text) →
  text ≠ "" →
  vars ≠ ∅ →
  (∀ name, is_name name = true → occurs_in name text →
           vars !! name = None ∧ inherited_name name = false) →
  (internalT key ∅ s).1 = text ∧ (internalT key vars s).1 = text.
Proof.
  intros Hlang Hnode Htext Hvars Hnothing. split.
  - rewrite internalT_result, (resolved_node _ _ _ _ Hlang Hnode).
    cbn. unfold or_else. by rewrite bool_decide_eq_false_2.
  - rewrite (internalT_string_leaf _ _ _ _ _ Hlang Hnode Hvars).
    destruct (cut_exists text) as [Hrender Hcut].
    rewrite <- Hrender at 1. rewrite (replace_render _ _ Hcut).
    rewrite <- Hrender at 2. apply render_with_ext, Forall_forall.
    intros name Hin.
    destruct (Hnothing name) as [Hnone Hinh].
    { pose proof (well_cut_names _ Hcut) as Hall.
      rewrite Forall_forall in Hall. by apply Hall. }
    { rewrite <- Hrender. by apply template_name_occurs. }
    unfold interpolation_replacer, read_var. by rewrite Hnone, Hinh.
Qed.

(** C5, at the inputs where the code departs from it.  On a leaf that
    holds the empty string the call without variables answers the
    fallback and the call with variables, whatever they are, answers the
    empty string: for the sample leaf [blank], and for every such leaf.
    On a leaf with a placeholder named like a method every object
    inherits, as [{{toString}}], the call without variables answers the
    leaf and the call with variables that match nothing in it puts the
    source text of the method in.  On every other leaf the two calls
    agree, and answer the leaf unchanged. *)
Theorem internalT_paths_disagree :
  ((internalT "blank" ∅ en_state).1 = todo_fallback "blank"
   ∧ (internalT "blank" {[ "name" := VarStr "Sam" ]} en_state).1 = "")
  ∧ (∀ (s : State) (key : string) (vars : gmap string VarValue)
       (tree : gmap string Json),
       own_get (globalLang s) (globalTranslations s) = Some tree →
       tree_lookup (split_dot key) (JObj tree) = Some (JStr "") →
       vars ≠ ∅ →
       (internalT key ∅ s).1 = todo_fallback key
       ∧ (internalT key vars s).1 = "")
  ∧ ((internalT "tip" ∅ method_state).1 = "See {{toString}}"
     ∧ (internalT "tip" {[ "name" := VarStr "Sam" ]} method_state).1
       = "See " +:+ native_source "toString")
  ∧ (∀ (s : State) (key : string) (vars : gmap string VarValue)
       (tree : gmap string Json) (text : string),
       own_get (globalLang s) (globalTranslations s) = Some tree →
       tree_lookup (split_dot key) (JObj tree) = Some (JStr text) →
       text ≠ "" →
       vars ≠ ∅ →
       (∀ name, is_name name = true → occurs_in name text →
                vars !! name = None ∧ inherited_name name = false) →
       (internalT key ∅ s).1 = text ∧ (internalT key vars s).1 = text).
Proof.
  assert (∀ (s : State) (key : string) (vars : gmap string VarValue)
            (tree : gmap string Json),
            own_get (globalLang s) (globalTranslations s) = Some tree →
            tree_lookup (split_dot key) (JObj tree) = Some (JStr "") →
            vars ≠ ∅ →
            (internalT key ∅ s).1 = todo_fallback key
            ∧ (internalT key vars s).1 = "") as Hempty.
  { intros s key vars tree Hlang Hnode Hvars. split.
    - by rewrite internalT_result, (resolved_node _ _ _ _ Hlang Hnode).
    - by rewrite (internalT_string_leaf _ _ _ _ _ Hlang Hnode Hvars). }
  split; [|split; [exact Hempty|split]].
  - apply (Hempty en_state "blank" _ en_tree); [done..|].
    apply map_non_empty_singleton.
  - split; vm_compute; reflexivity.
  - exact internalT_empty_vars_noop.
Qed.

(** ** Construction of the store *)

(** The part of C9 that holds of the code: an absent or empty slot gives
    an empty store. *)
Lemma module_state_absent (lang : option string) :
  ∃ s, module_state MAGIC_CONFIG
         {| magic_translations := NoItem;
            magic_translation_metadata := EmptyItem;
            magic_lang := lang |} = Loaded s
       ∧ globalTranslations s = [] ∧ translationMetadata s = ∅.
Proof. eexists. split; [reflexivity|]. by split. Qed.

(** When the construction of the store throws: exactly when the editing
    interface is enabled and one of the two persisted texts does not
    parse. *)
Lemma module_state_fails (cfg : Config) (ls : Storage) :
  (∃ error, module_state cfg ls = LoadFailed error)
  ↔ enableUI cfg = true
    ∧ (magic_translations ls = BadItem ∨ magic_translation_metadata ls = BadItem).
Proof.
  unfold module_state. destruct (enableUI cfg).
  - destruct (magic_translations ls), (magic_translation_metadata ls); simpl;
      split; try (intros [? ?]; done); try (intros [_ [?|?]]; done);
      try (intros _; eauto); intros; split; auto.
  - split; [intros [? ?]; done|intros [? _]; done].
Qed.

(** C9, at the input where the code departs from it: with a persisted
    override text that does not parse, in either slot, the module-level
    [JSON.parse] throws and no store is constructed. *)
Theorem module_state_malformed
    (store : Store)
    (metadata : Item (gmap string (gmap string Metadata)))
    (lang : option string) :
  module_state MAGIC_CONFIG
    {| magic_translations := BadItem;
       magic_translation_metadata := metadata;
       magic_lang := lang |} = LoadFailed "SyntaxError"
  ∧ module_state MAGIC_CONFIG
      {| magic_translations := JsonItem store;
         magic_translation_metadata := BadItem;
         magic_lang := lang |} = LoadFailed "SyntaxError".
Proof. split; reflexivity. Qed.

(** ** Unknown languages *)

(** C10, at the input where the code departs from it: [setCurrentLang]
    takes [__proto__] as it takes any string; the store has no tree under
    that name, yet the resolver reads the prototype object there and
    returns the source text of an inherited method instead of the
    fallback. *)
Theorem internalT_proto_language :
  ∃ s, setCurrentLang MAGIC_CONFIG "__proto__" en_state = Normal s
     ∧ globalLang s = "__proto__"
     ∧ own_get (globalLang s) (globalTranslations s) = None
     ∧ (internalT "toString" ∅ s).1 = native_source "toString"
     ∧ (internalT "toString" ∅ s).1 ≠ todo_fallback "toString".
Proof.
  eexists. split; [reflexivity|]. split; [reflexivity|].
  split; [reflexivity|]. split; [reflexivity|].
  vm_compute. discriminate.
Qed.

(** ** Removing a language *)

(** The part of C8 that holds of the code: with at most one language in
    the store the call is refused, and nothing of the store changes. *)
Lemma removeLanguage_last_refused (cfg : Config) (confirmed : bool)
    (langToRemove : string) (s : State) :
  length (own_keys (globalTranslations s)) ≤ 1 →
  removeLanguage cfg confirmed langToRemove s
  = Normal (alert last_language_refusal s)
  ∧ store_state (alert last_language_refusal s) = store_state s
  ∧ globalLang (alert last_language_refusal s) = globalLang s.
Proof.
  intros Hlen. unfold removeLanguage.
  by rewrite (proj2 (Nat.leb_le _ _) Hlen).
Qed.

(** Whatever is removed, and whether or not the dialog is accepted, the
    metadata in memory is what it was. *)
Lemma removeLanguage_metadata_untouched (cfg : Config) (confirmed : bool)
    (langToRemove : string) (s s' : State) :
  removeLanguage cfg confirmed langToRemove s = Normal s' →
  translationMetadata s' = translationMetadata s.
Proof.
  unfold removeLanguage, setCurrentLang, saveToStorage.
  repeat (case_match; simplify_eq/=); by intros [= <-].
Qed.

(** C8, at inputs where the code departs from it.  Removing [fr] deletes
    its tree and leaves its metadata, in memory and in what is saved;
    removing the active [en] brings it back from the saved copy at once,
    behind [fr]. *)
Theorem removeLanguage_leaves_metadata :
  (∃ s, removeLanguage MAGIC_CONFIG true "fr" editor_state = Normal s
      ∧ own_keys (globalTranslations s) = ["en"]
      ∧ translationMetadata s = fr_metadata
      ∧ is_Some (translationMetadata s !! "fr")
      ∧ magic_translation_metadata (localStorage s) = JsonItem fr_metadata)
  ∧ (∃ s, removeLanguage MAGIC_CONFIG true "en" editor_state = Normal s
        ∧ own_keys (globalTranslations s) = ["fr"; "en"]
        ∧ globalLang s = "fr").
Proof.
  split.
  - eexists. split; [reflexivity|]. split; [reflexivity|].
    split; [reflexivity|]. split; [|reflexivity].
    by eexists.
  - eexists. split; [reflexivity|]. by split.
Qed.

(** ** Objects as ordered property lists *)

Section own_properties.
Context {A : Type}.
Implicit Types (o : list (string * A)) (k : string) (v : A).

Lemma own_get_None k o : own_get k o = None ↔ k ∉ own_keys o.
Proof.
  unfold own_keys. induction o as [|[k' v'] o IH]; simpl.
  - split; [intros _; apply not_elem_of_nil|done].
  - rewrite not_elem_of_cons. case_bool_decide; [|tauto].
    split; [done|]. tauto.
Qed.

Lemma own_get_Some_elem k v o : own_get k o = Some v → (k, v) ∈ o.
Proof.
  induction o as [|[k' v'] o IH]; simpl; [done|].
  case_bool_decide.
  - intros [= ->]. subst. apply list_elem_of_here.
  - intros ?. apply list_elem_of_further. auto.
Qed.

Lemma own_get_elem k v o :
  NoDup (own_keys o) → (k, v) ∈ o → own_get k o = Some v.
Proof.
  unfold own_keys. induction o as [|[k' v'] o IH]; simpl.
  - by intros _ ?%elem_of_nil.
  - intros [Hnotin Hnodup]%NoDup_cons [[= -> ->]|Hin]%elem_of_cons.
    + by rewrite bool_decide_eq_true_2.
    + rewrite bool_decide_eq_false_2; [by apply IH|].
      intros ->. apply Hnotin. apply list_elem_of_fmap.
      by exists (k', v).
Qed.

Lemma own_get_replace_eq k v o :
  is_Some (own_get k o) → own_get k (own_replace k v o) = Some v.
Proof.
  induction o as [|[k' v'] o IH]; simpl; [by intros [? ?]|].
  case_bool_decide as Hk; simpl.
  - by rewrite bool_decide_eq_true_2.
  - by rewrite (bool_decide_eq_false_2 _ Hk).
Qed.

Lemma own_get_replace_ne k k' v o :
  k' ≠ k → own_get k' (own_replace k v o) = own_get k' o.
Proof.
  intros Hne. induction o as [|[k0 v0] o IH]; simpl; [done|].
  case_bool_decide as Hk; simpl.
  - subst k0. by rewrite !(bool_decide_eq_false_2 _ Hne).
  - by rewrite IH.
Qed.

Lemma own_get_insert_index (n : N) k k' v o :
  own_get k o = None →
  own_get k' (insert_index n k v o)
  = if bool_decide (k' = k) then Some v else own_get k' o.
Proof.
  induction o as [|[k0 v0] o IH]; intros Hnone; simpl in *; [done|].
  destruct (decide (k = k0)) as [->|Hk0].
  { by rewrite bool_decide_eq_true_2 in Hnone. }
  rewrite bool_decide_eq_false_2 in Hnone by done.
  destruct (array_index k0) as [m|]; [destruct (m <? n)%N|]; simpl;
    rewrite ?IH by done; repeat case_bool_decide; simplify_eq; done.
Qed.

Lemma own_get_app k' o1 o2 :
  own_get k' (o1 ++ o2)
  = match own_get k' o1 with Some x => Some x | None => own_get k' o2 end.
Proof.
  induction o1 as [|[k0 v0] o1 IH]; simpl; [done|].
  by case_bool_decide.
Qed.

Lemma own_get_add k k' v o :
  own_get k o = None →
  own_get k' (own_add k v o) = if bool_decide (k' = k) then Some v else own_get k' o.
Proof.
  intros Hnone. unfold own_add. destruct (array_index k) as [n|].
  - by rewrite own_get_insert_index.
  - rewrite own_get_app. simpl. case_bool_decide.
    + subst. by rewrite Hnone.
    + by destruct (own_get k' o).
Qed.

(** Reading back what was written, and what was not. *)
Lemma own_get_set_eq k v o : own_get k (own_set k v o) = Some v.
Proof.
  unfold own_set. destruct (own_get k o) as [v0|] eqn:Hget.
  - apply own_get_replace_eq. by rewrite Hget.
  - rewrite own_get_add by done. by rewrite bool_decide_eq_true_2.
Qed.

Lemma own_get_set_ne k k' v o : k' ≠ k → own_get k' (own_set k v o) = own_get k' o.
Proof.
  intros Hne. unfold own_set. destruct (own_get k o) as [v0|] eqn:Hget.
  - by apply own_get_replace_ne.
  - rewrite own_get_add by done. by rewrite bool_decide_eq_false_2.
Qed.

(** Writing the value a property already has changes nothing. *)
Lemma own_set_same k v o : own_get k o = Some v → own_set k v o = o.
Proof.
  intros Hget. unfold own_set. rewrite Hget. clear -Hget.
  induction o as [|[k' v'] o IH]; simpl in *; [done|].
  case_bool_decide.
  - by simplify_eq.
  - by rewrite IH.
Qed.
End own_properties.

(** ** Loading *)

Lemma enumerable_own_read (lang : string) (store : Store) :
  enumerable_own (read_language lang store) = default ∅ (own_get lang store).
Proof.
  unfold read_language. destruct (own_get lang store); [done|].
  destruct (inherited_name lang); [|done].
  unfold prototype_member. repeat case_bool_decide; done.
Qed.

Lemma load_language_body (cfg : Config) (source : string → Fetched)
    (store : Store) (lang : string) (prod : gmap string Json) :
  source lang = Body prod →
  load_language cfg source store lang
  = own_set lang (loaded_tree cfg prod (own_get lang store)) store.
Proof.
  intros Hbody. unfold load_language, loaded_tree. rewrite Hbody.
  rewrite enumerable_own_read. by destruct (enableUI cfg).
Qed.

Lemma load_language_skip (cfg : Config) (source : string → Fetched)
    (store : Store) (lang : string) :
  (∀ prod, source lang ≠ Body prod) →
  load_language cfg source store lang = store.
Proof.
  intros Hskip. unfold load_language.
  destruct (source lang) as [| | |prod]; try done. by destruct (Hskip prod).
Qed.

Lemma own_get_load_language_ne (cfg : Config) (source : string → Fetched)
    (store : Store) (lang lang' : string) :
  lang' ≠ lang →
  own_get lang' (load_language cfg source store lang) = own_get lang' store.
Proof.
  intros Hne. unfold load_language.
  destruct (source lang); try done.
  destruct (enableUI cfg); by apply own_get_set_ne.
Qed.

Lemma own_get_load_other (cfg : Config) (source : string → Fetched)
    (langs : list string) (store : Store) (lang : string) :
  lang ∉ langs →
  own_get lang (foldl (load_language cfg source) store langs) = own_get lang store.
Proof.
  revert store. induction langs as [|l langs IH]; intros store Hnotin; [done|].
  apply not_elem_of_cons in Hnotin as [Hne Hnotin]. simpl.
  rewrite IH by done. by apply own_get_load_language_ne.
Qed.

Lemma own_get_load (cfg : Config) (source : string → Fetched)
    (langs : list string) (store : Store) (lang : string)
    (prod : gmap string Json) :
  NoDup langs → lang ∈ langs → source lang = Body prod →
  own_get lang (foldl (load_language cfg source) store langs)
  = Some (loaded_tree cfg prod (own_get lang store)).
Proof.
  intros Hnodup Hin Hbody. revert store.
  induction langs as [|l langs IH]; intros store; [by apply elem_of_nil in Hin|].
  apply NoDup_cons in Hnodup as [Hnotin Hnodup]. simpl.
  apply elem_of_cons in Hin as [->|Hin].
  - rewrite own_get_load_other by done.
    rewrite (load_language_body _ _ _ _ _ Hbody). apply own_get_set_eq.
  - rewrite IH by done. f_equal. f_equal.
    apply own_get_load_language_ne. intros ->. done.
Qed.

Lemma languagesToTry_NoDup : NoDup languagesToTry.
Proof. apply (bool_decide_unpack _). by compute. Qed.

(** C6: with the editing interface enabled, after
    [loadProductionTranslations] the tree of every language whose
    document was fetched is [{ ...base, ...override }], where [override]
    is what the store held for the language: a top-level key of the
    override has the override's whole value, a top-level key of the base
    alone keeps the base's value, and nothing below the top level is
    merged. *)
Theorem loadProductionTranslations_merges (cfg : Config)
    (source : string → Fetched) (s : State) (lang : string)
    (base : gmap string Json) :
  enableUI cfg = true →
  lang ∈ languagesToTry →
  source lang = Body base →
  ∃ effective,
    own_get lang (globalTranslations (loadProductionTranslations cfg source s))
    = Some effective
    ∧ effective = spread2 base (default ∅ (own_get lang (globalTranslations s)))
    ∧ ∀ k, effective !! k
           = match default ∅ (own_get lang (globalTranslations s)) !! k with
             | Some v => Some v
             | None => base !! k
             end.
Proof.
  intros Hui Hin Hbody. eexists. split; [|split; [reflexivity|]].
  - unfold loadProductionTranslations. cbn [globalTranslations notifySubscribers with_translations].
    rewrite (own_get_load _ _ _ _ _ _ languagesToTry_NoDup Hin Hbody).
    unfold loaded_tree. by rewrite Hui.
  - intros k. unfold spread2.
    destruct (default ∅ (own_get lang (globalTranslations s)) !! k) as [v|] eqn:Hk.
    + by apply lookup_union_Some_l.
    + by rewrite lookup_union_r.
Qed.

Lemma loadProductionTranslations_merges_witness :
  ∃ effective,
    own_get "en" (globalTranslations
                    (loadProductionTranslations MAGIC_CONFIG sample_source
                       editor_state)) = Some effective
    ∧ effective !! "a" = Some (JStr "x")
    ∧ effective !! "b" = Some (JStr "B")
    ∧ effective !! "nav" = Some (JObj {[ "home" := JStr "Start" ]}).
Proof.
  destruct (loadProductionTranslations_merges MAGIC_CONFIG sample_source
              editor_state "en" en_base eq_refl)
    as (effective & Hget & _ & Hkeys).
  - apply (bool_decide_unpack _). by vm_compute.
  - reflexivity.
  - exists effective. split; [exact Hget|].
    repeat split; rewrite Hkeys; reflexivity.
Defined.

(** ** Reconciliation *)

Lemma filter_ext_elem {A} (P Q : A → Prop) `{!∀ x, Decision (P x)}
    `{!∀ x, Decision (Q x)} (l : list A) :
  (∀ x, x ∈ l → (P x ↔ Q x)) → filter P l = filter Q l.
Proof.
  induction l as [|x l IH]; intros Hext; [done|].
  rewrite !filter_cons.
  pose proof (Hext x (list_elem_of_here _ _)) as Hx.
  rewrite IH by (intros y Hy; apply Hext; by apply list_elem_of_further).
  repeat case_decide; tauto.
Qed.

Section own_order.
Context {A : Type}.
Implicit Types (o : list (string * A)) (k : string) (v : A).

Lemma own_keys_replace k v o : own_keys (own_replace k v o) = own_keys o.
Proof.
  unfold own_keys. induction o as [|[k' v'] o IH]; simpl; [done|].
  case_bool_decide; simpl; [by subst|by f_equal].
Qed.

Lemma insert_index_perm (n : N) k v o : insert_index n k v o ≡ₚ (k, v) :: o.
Proof.
  induction o as [|[k' v'] o IH]; simpl; [done|].
  destruct (array_index k') as [m|]; [destruct (m <? n)%N|]; try done.
  rewrite IH. apply Permutation_swap.
Qed.

Lemma own_add_perm k v o : own_add k v o ≡ₚ (k, v) :: o.
Proof.
  unfold own_add. destruct (array_index k).
  - apply insert_index_perm.
  - by rewrite Permutation_app_comm.
Qed.

Lemma own_set_NoDup k v o : NoDup (own_keys o) → NoDup (own_keys (own_set k v o)).
Proof.
  intros Hnodup. unfold own_set.
  destruct (own_get k o) as [v0|] eqn:Hget.
  - by rewrite own_keys_replace.
  - unfold own_keys. rewrite own_add_perm. simpl.
    apply NoDup_cons. split; [|done]. by apply own_get_None.
Qed.

Lemma own_keys_set k k' v o :
  k' ∈ own_keys (own_set k v o) ↔ k' = k ∨ k' ∈ own_keys o.
Proof.
  unfold own_set. destruct (own_get k o) as [v0|] eqn:Hget.
  - rewrite own_keys_replace. split; [by right|].
    intros [->|?]; [|done].
    destruct (decide (k ∈ own_keys o)) as [|Hnot]; [done|].
    apply own_get_None in Hnot. congruence.
  - unfold own_keys. rewrite own_add_perm. simpl. by rewrite elem_of_cons.
Qed.

(** A property that a filter drops can be added anywhere. *)
Lemma filter_insert_index (P : string * A → Prop) `{!∀ x, Decision (P x)}
    (n : N) k v o :
  ¬ P (k, v) → filter P (insert_index n k v o) = filter P o.
Proof.
  intros Hdrop. induction o as [|[k' v'] o IH]; simpl.
  - by rewrite filter_cons_False.
  - destruct (array_index k') as [m|]; [destruct (m <? n)%N|].
    + by rewrite !filter_cons, IH.
    + by rewrite (filter_cons_False _ _ _ Hdrop).
    + by rewrite (filter_cons_False _ _ _ Hdrop).
Qed.

Lemma filter_own_add (P : string * A → Prop) `{!∀ x, Decision (P x)} k v o :
  ¬ P (k, v) → filter P (own_add k v o) = filter P o.
Proof.
  intros Hdrop. unfold own_add. destruct (array_index k).
  - by apply filter_insert_index.
  - rewrite filter_app, filter_cons_False by done.
    by rewrite filter_nil, app_nil_r.
Qed.

Lemma own_delete_fold (langs : list string) o :
  foldl (λ o lang, own_delete lang o) o langs = filter (λ kv, kv.1 ∉ langs) o.
Proof.
  revert o. induction langs as [|l langs IH]; intros o; simpl.
  - symmetry. induction o as [|kv o IHo]; [done|].
    rewrite filter_cons_True by apply not_elem_of_nil. by rewrite IHo.
  - rewrite IH. unfold own_delete. rewrite list_filter_filter.
    apply list_filter_iff. intros kv. rewrite not_elem_of_cons. tauto.
Qed.
End own_order.

Lemma has_entries_spec (store : Store) (lang : string) (tree : gmap string Json) :
  own_get lang store = Some tree →
  (has_entries store lang ↔ nonempty_entry (lang, tree)).
Proof.
  intros Hget. unfold has_entries, nonempty_entry.
  rewrite enumerable_own_read, Hget. simpl.
  destruct (size tree); simpl; split; (done || lia).
Qed.

Lemma elem_languages_to_remove (store : Store) (lang : string) :
  lang ∈ languages_to_remove store
  ↔ lang ∈ own_keys store ∧ ¬ has_entries store lang.
Proof.
  unfold languages_to_remove. rewrite !list_elem_of_filter. tauto.
Qed.

(** The clean-up keeps exactly the languages that have entries. *)
Lemma filter_languages_to_remove (store : Store) :
  NoDup (own_keys store) →
  filter (λ kv, kv.1 ∉ languages_to_remove store) store
  = filter nonempty_entry store.
Proof.
  intros Hnodup. apply filter_ext_elem. intros [lang tree] Hin. simpl.
  rewrite elem_languages_to_remove.
  pose proof (own_get_elem _ _ _ Hnodup Hin) as Hget.
  rewrite (has_entries_spec _ _ _ Hget).
  assert (lang ∈ own_keys store).
  { apply list_elem_of_fmap. by exists (lang, tree). }
  destruct (decide (nonempty_entry (lang, tree))); tauto.
Qed.

Lemma own_get_filter {A} (P : string * A → Prop) `{!∀ x, Decision (P x)}
    (k : string) (o : list (string * A)) :
  NoDup (own_keys o) →
  own_get k (filter P o)
  = match own_get k o with
    | Some v => if decide (P (k, v)) then Some v else None
    | None => None
    end.
Proof.
  unfold own_keys. induction o as [|[k' v'] o IH]; simpl; [done|].
  intros [Hnotin Hnodup]%NoDup_cons. rewrite filter_cons.
  destruct (decide (k = k')) as [->|Hne].
  - rewrite bool_decide_eq_true_2 by done.
    destruct (decide (P (k', v'))) as [HP|HP]; simpl.
    + by rewrite bool_decide_eq_true_2.
    + apply own_get_None. unfold own_keys. intros Hin. apply Hnotin.
      apply list_elem_of_fmap in Hin as ([k0 v0] & -> & Hin).
      apply list_elem_of_filter in Hin as [_ Hin].
      apply list_elem_of_fmap. by exists (k0, v0).
  - rewrite (bool_decide_eq_false_2 _ Hne).
    destruct (decide (P (k', v'))); simpl; rewrite ?bool_decide_eq_false_2 by done;
      by apply IH.
Qed.

Lemma loaded_tree_idem (cfg : Config) (prod : gmap string Json)
    (old : option (gmap string Json)) :
  loaded_tree cfg prod (Some (loaded_tree cfg prod old)) = loaded_tree cfg prod old.
Proof.
  unfold loaded_tree, spread2. destruct (enableUI cfg); [|done]. simpl.
  by rewrite <- (assoc_L (∪)), (idemp_L (∪) prod).
Qed.

Lemma loaded_tree_empty (cfg : Config) (prod : gmap string Json)
    (old : option (gmap string Json)) :
  ¬ nonempty_entry ("", loaded_tree cfg prod old) →
  loaded_tree cfg prod None = ∅.
Proof.
  unfold nonempty_entry, loaded_tree, spread2. simpl. intros Hsize.
  assert (size (if enableUI cfg then default ∅ old ∪ prod else prod) = 0)
    as Hzero by lia.
  apply map_size_empty_iff in Hzero.
  destruct (enableUI cfg); [|done].
  pose proof (map_positive_l _ _ Hzero) as Hold.
  rewrite Hold, (left_id_L ∅ (∪)) in Hzero. subst prod.
  by rewrite (left_id_L ∅ (∪)).
Qed.

Section reconcile.
Variables (cfg : Config) (source : string → Fetched).

Lemma load_store_NoDup (langs : list string) (store : Store) :
  NoDup (own_keys store) →
  NoDup (own_keys (foldl (load_language cfg source) store langs)).
Proof.
  revert store. induction langs as [|l langs IH]; intros store Hnodup; [done|].
  simpl. apply IH. unfold load_language.
  destruct (source l); try done.
  destruct (enableUI cfg); by apply own_set_NoDup.
Qed.

Lemma reload (langs : list string) (store : Store) :
  NoDup langs →
  NoDup (own_keys store) →
  settled cfg source store langs →
  filter nonempty_entry (foldl (load_language cfg source) store langs)
  = filter nonempty_entry store
  ∧ (∀ k, k ∈ own_keys (foldl (load_language cfg source) store langs) →
          k ∈ own_keys store ∨ (k ∈ langs ∧ ∃ prod, source k = Body prod)).
Proof.
  revert store. induction langs as [|l langs IH]; intros store Hlangs Hnodup Hset.
  { split; [done|]. intros k Hk. by left. }
  apply NoDup_cons in Hlangs as [Hl Hlangs]. simpl.
  assert (filter nonempty_entry (load_language cfg source store l)
          = filter nonempty_entry store
          ∧ NoDup (own_keys (load_language cfg source store l))
          ∧ (∀ k, k ∈ own_keys (load_language cfg source store l) →
                  k ∈ own_keys store ∨ (k = l ∧ ∃ prod, source k = Body prod)))
    as (Hfilter & Hnodup' & Hkeys).
  { destruct (source l) as [| | |prod] eqn:Hsrc;
      try (unfold load_language; rewrite Hsrc; by auto).
    rewrite (load_language_body _ _ _ _ _ Hsrc).
    destruct (Hset l prod (list_elem_of_here _ _) Hsrc)
      as [(w & Hget & Hw)|[Hget Hw]]; rewrite Hget, Hw.
    - rewrite (own_set_same _ _ _ Hget). auto.
    - split; [|split].
      + unfold own_set. rewrite Hget. apply filter_own_add.
        unfold nonempty_entry. simpl. rewrite map_size_empty. lia.
      + by apply own_set_NoDup.
      + intros k [->|Hk]%own_keys_set; [right|by left]. eauto. }
  destruct (IH (load_language cfg source store l) Hlangs Hnodup') as [IH1 IH2].
  { intros lang prod Hin Hsrc.
    rewrite own_get_load_language_ne by (intros ->; done).
    apply Hset; [by apply list_elem_of_further|done]. }
  split; [by rewrite IH1|].
  intros k Hk. destruct (IH2 k Hk) as [Hin|[Hin Hsrc]].
  - destruct (Hkeys k Hin) as [?|[-> ?]]; [by left|right].
    split; [apply list_elem_of_here|done].
  - right. split; [by apply list_elem_of_further|done].
Qed.

(** After a pass of the loader and the clean-up, the store is settled. *)
Lemma settled_after (store : Store) :
  NoDup (own_keys store) →
  settled cfg source (filter nonempty_entry (load_store cfg source store)) languagesToTry.
Proof.
  intros Hnodup lang prod Hin Hsrc.
  pose proof (own_get_filter nonempty_entry lang _
                (load_store_NoDup languagesToTry store Hnodup)) as Hget.
  fold (load_store cfg source store) in Hget. unfold load_store in Hget at 2.
  rewrite (own_get_load _ _ _ _ _ _ languagesToTry_NoDup Hin Hsrc) in Hget.
  case_decide as Hsize.
  - left. eexists. split; [done|]. apply loaded_tree_idem.
  - right. split; [done|]. eapply loaded_tree_empty.
    unfold nonempty_entry in *. exact Hsize.
Qed.

(** A second pass of the loader alone changes nothing. *)
Lemma load_store_again (langs : list string) (store : Store) :
  (∀ lang prod, lang ∈ langs → source lang = Body prod →
     ∃ w, own_get lang store = Some w ∧ loaded_tree cfg prod (Some w) = w) →
  foldl (load_language cfg source) store langs = store.
Proof.
  induction langs as [|l langs IH]; intros Hfix; [done|]. simpl.
  assert (load_language cfg source store l = store) as ->.
  { destruct (source l) as [| | |prod] eqn:Hsrc;
      try (unfold load_language; by rewrite Hsrc).
    rewrite (load_language_body _ _ _ _ _ Hsrc).
    destruct (Hfix l prod (list_elem_of_here _ _) Hsrc) as (w & Hget & Hw).
    rewrite Hget, Hw. by apply own_set_same. }
  apply IH. intros lang prod Hin. apply Hfix. by apply list_elem_of_further.
Qed.

Lemma load_store_idem (store : Store) :
  load_store cfg source (load_store cfg source store)
  = load_store cfg source store.
Proof.
  apply load_store_again. intros lang prod Hin Hsrc. unfold load_store.
  rewrite (own_get_load _ _ _ _ _ _ languagesToTry_NoDup Hin Hsrc).
  eexists. split; [done|]. apply loaded_tree_idem.
Qed.
End reconcile.

Lemma own_keys_filter_NoDup {A} (P : string * A → Prop) `{!∀ x, Decision (P x)}
    (o : list (string * A)) :
  NoDup (own_keys o) → NoDup (own_keys (filter P o)).
Proof.
  intros Hnodup. eapply sublist_NoDup; [exact Hnodup|].
  unfold own_keys. apply fmap_sublist, sublist_filter.
Qed.

Lemma lookup_foldl_delete {A} (m : gmap string A) (langs : list string)
    (k : string) :
  foldl (λ m lang, delete lang m) m langs !! k
  = if decide (k ∈ langs) then None else m !! k.
Proof.
  revert m. induction langs as [|l langs IH]; intros m; simpl.
  - destruct (decide (k ∈ [])) as [Hin|_]; [by apply elem_of_nil in Hin|done].
  - rewrite IH. rewrite lookup_delete.
    destruct (decide (k ∈ langs)) as [Hin|Hnotin];
      destruct (decide (k ∈ l :: langs)) as [Hin'|Hnotin']; try done.
    + exfalso. by apply Hnotin', list_elem_of_further.
    + apply elem_of_cons in Hin' as [->|?]; [|done]. by rewrite decide_True.
    + apply not_elem_of_cons in Hnotin' as [Hne _]. by rewrite decide_False.
Qed.

Lemma remove_language_fold (langs : list string) (s : State) :
  globalTranslations (foldl remove_language_step s langs)
  = foldl (λ o lang, own_delete lang o) (globalTranslations s) langs
  ∧ translationMetadata (foldl remove_language_step s langs)
    = foldl (λ m lang, delete lang m) (translationMetadata s) langs
  ∧ localStorage (foldl remove_language_step s langs) = localStorage s.
Proof.
  revert s. induction langs as [|l langs IH]; intros s; [done|]. simpl.
  destruct (IH (remove_language_step s l)) as (-> & -> & ->). done.
Qed.

(** The clean-up, component by component. *)
Lemma initializeTranslations_state (cfg : Config) (source : string → Fetched)
    (s : State) :
  let loaded := load_store cfg source (globalTranslations s) in
  let removed := languages_to_remove loaded in
  let translations := filter (λ kv, kv.1 ∉ removed) loaded in
  let metadata := foldl (λ m lang, delete lang m) (translationMetadata s) removed in
  store_state (initializeTranslations cfg source s)
  = (translations, metadata,
     if (0 <? length removed)%nat && enableUI cfg then
       {| magic_translations := JsonItem translations;
          magic_translation_metadata := JsonItem metadata;
          magic_lang := magic_lang (localStorage s) |}
     else localStorage s).
Proof.
  intros loaded removed translations metadata.
  unfold initializeTranslations.
  set (s1 := loadProductionTranslations cfg source s).
  change (globalTranslations s1) with loaded.
  change (filter (λ lang, lang ∉ filter (λ lang, has_entries loaded lang)
                                        (own_keys loaded))
                 (own_keys loaded)) with removed.
  destruct (remove_language_fold removed s1) as (HT & HM & HS).
  change (globalTranslations s1) with loaded in HT.
  change (translationMetadata s1) with (translationMetadata s) in HM.
  change (localStorage s1) with (localStorage s) in HS.
  rewrite own_delete_fold in HT. fold translations in HT. fold metadata in HM.
  unfold store_state.
  destruct (0 <? length removed)%nat eqn:Hlen.
  - destruct (enableUI cfg);
      cbn [globalTranslations translationMetadata localStorage with_storage andb];
      rewrite ?HT, ?HM, ?HS; done.
  - cbn [andb]. apply Nat.ltb_ge in Hlen.
    assert (removed = []) as Hnil by (apply nil_length_inv; lia).
    change (globalTranslations s1) with loaded.
    change (translationMetadata s1) with (translationMetadata s).
    change (localStorage s1) with (localStorage s).
    unfold translations, metadata. rewrite Hnil. cbn [foldl].
    f_equal. f_equal. exact (own_delete_fold [] loaded).
Qed.

(** A language removed by a second clean-up was removed by the first. *)
Lemma removed_again (cfg : Config) (source : string → Fetched) (store : Store)
    (lang : string) :
  NoDup (own_keys store) →
  let loaded := load_store cfg source store in
  let kept := filter nonempty_entry loaded in
  lang ∈ languages_to_remove (load_store cfg source kept) →
  filter nonempty_entry (load_store cfg source kept) = kept
  ∧ lang ∈ languages_to_remove loaded.
Proof.
  intros Hnodup loaded kept Hin.
  assert (NoDup (own_keys loaded)) as Hloaded by (by apply load_store_NoDup).
  assert (NoDup (own_keys kept)) as Hkept by (by apply own_keys_filter_NoDup).
  destruct (reload cfg source languagesToTry kept languagesToTry_NoDup Hkept
              (settled_after cfg source store Hnodup)) as [Hfilter Hkeys].
  fold (load_store cfg source kept) in Hfilter, Hkeys.
  assert (filter nonempty_entry kept = kept) as Hidem.
  { unfold kept. by apply list_filter_filter_l. }
  rewrite Hidem in Hfilter. split; [done|].
  assert (NoDup (own_keys (load_store cfg source kept))) as Hreloaded
    by (by apply load_store_NoDup).
  apply elem_languages_to_remove in Hin as [Hkey Hempty].
  assert (lang ∉ own_keys kept) as Hgone.
  { intros Hin. apply list_elem_of_fmap in Hin as ([k v] & -> & Hin). simpl in *.
    rewrite <- Hfilter in Hin. apply list_elem_of_filter in Hin as [Hsize Hin].
    apply Hempty. eapply has_entries_spec; [|exact Hsize].
    by apply own_get_elem. }
  destruct (Hkeys lang Hkey) as [?|[Htry [prod Hsrc]]]; [done|].
  apply elem_languages_to_remove.
  pose proof (own_get_load cfg source languagesToTry store lang prod
                languagesToTry_NoDup Htry Hsrc) as Hget.
  fold (load_store cfg source store) in Hget. fold loaded in Hget.
  split.
  - apply own_get_Some_elem in Hget. apply list_elem_of_fmap. by eexists (_, _).
  - intros Hfull. apply Hgone.
    apply (has_entries_spec _ _ _ Hget) in Hfull.
    apply list_elem_of_fmap. eexists (lang, _). split; [done|].
    apply list_elem_of_filter. split; [exact Hfull|].
    by apply own_get_Some_elem.
Qed.

(** C7: a reconciliation run twice in a row against the same base
    documents leaves the store as one run leaves it: the trees in memory,
    the metadata, and what is persisted.  This holds of the start-up
    reconciliation [initializeTranslations] (load, then clean-up) and of
    the loader [loadProductionTranslations] alone, with the editing
    interface enabled or not. *)
Theorem reconcile_idempotent (cfg : Config) (source : string → Fetched)
    (s : State) :
  NoDup (own_keys (globalTranslations s)) →
  store_state (initializeTranslations cfg source
                 (initializeTranslations cfg source s))
  = store_state (initializeTranslations cfg source s)
  ∧ store_state (loadProductionTranslations cfg source
                   (loadProductionTranslations cfg source s))
    = store_state (loadProductionTranslations cfg source s).
Proof.
  intros Hnodup. split.
  - pose proof (initializeTranslations_state cfg source s) as H1.
    pose proof (initializeTranslations_state cfg source
                  (initializeTranslations cfg source s)) as H2.
    cbv zeta in H1, H2. rewrite H2. clear H2.
    unfold store_state in H1 at 1.
    set (s1 := initializeTranslations cfg source s) in *.
    injection H1 as HT HM HS.
    set (loaded := load_store cfg source (globalTranslations s)) in *.
    assert (NoDup (own_keys loaded)) as Hloaded by (by apply load_store_NoDup).
    rewrite (filter_languages_to_remove _ Hloaded) in HT.
    set (kept := filter nonempty_entry loaded) in *.
    rewrite HT in *.
    assert (NoDup (own_keys (load_store cfg source kept))) as Hreloaded.
    { apply load_store_NoDup. by apply own_keys_filter_NoDup. }
    rewrite (filter_languages_to_remove _ Hreloaded).
    assert (∀ lang, lang ∈ languages_to_remove (load_store cfg source kept) →
                    filter nonempty_entry (load_store cfg source kept) = kept
                    ∧ lang ∈ languages_to_remove loaded) as Hagain.
    { intros lang. by apply removed_again. }
    assert (filter nonempty_entry (load_store cfg source kept) = kept) as Hkept.
    { destruct (reload cfg source languagesToTry kept languagesToTry_NoDup)
        as [Hfilter _].
      - by apply own_keys_filter_NoDup.
      - by apply settled_after.
      - fold (load_store cfg source kept) in Hfilter. rewrite Hfilter.
        unfold kept. by apply list_filter_filter_l. }
    rewrite Hkept.
    assert (foldl (λ m lang, delete lang m) (translationMetadata s1)
                  (languages_to_remove (load_store cfg source kept))
            = translationMetadata s1) as Hmeta.
    { apply map_eq. intros k. rewrite lookup_foldl_delete.
      case_decide as Hin; [|done].
      destruct (Hagain k Hin) as [_ Hin1].
      rewrite HM, lookup_foldl_delete. by rewrite decide_True. }
    rewrite Hmeta. unfold store_state. rewrite HT. f_equal.
    destruct (languages_to_remove (load_store cfg source kept)) as [|k ks] eqn:Hk;
      [done|].
    destruct (enableUI cfg) eqn:Hui; [|done].
    destruct (Hagain k (list_elem_of_here _ _)) as [_ Hin1].
    assert ((0 <? length (languages_to_remove loaded))%nat = true) as Hlen.
    { destruct (languages_to_remove loaded); [by apply elem_of_nil in Hin1|done]. }
    rewrite Hlen in HS. cbn [andb] in HS.
    cbn [length Nat.ltb Nat.leb andb]. rewrite HS. cbn [magic_lang].
    by rewrite HM, (filter_languages_to_remove _ Hloaded).
  - unfold store_state, loadProductionTranslations.
    cbn [globalTranslations translationMetadata localStorage
         notifySubscribers with_translations].
    fold (load_store cfg source (globalTranslations s)).
    fold (load_store cfg source (load_store cfg source (globalTranslations s))).
    by rewrite load_store_idem.
Qed.

Lemma reconcile_idempotent_witness :
  store_state (initializeTranslations MAGIC_CONFIG sample_source
                 (initializeTranslations MAGIC_CONFIG sample_source editor_state))
  = store_state (initializeTranslations MAGIC_CONFIG sample_source editor_state).
Proof.
  refine (proj1 (reconcile_idempotent MAGIC_CONFIG sample_source editor_state _)).
  apply (bool_decide_unpack _). by vm_compute.
Defined.

(** * Further properties *)

(** ** The status rule *)

Lemma includes_spec (sub s : string) :
  includes sub s = true ↔ substring_of sub s.
Proof.
  split.
  - induction s as [|c s IH]; simpl.
    + destruct (strip_prefix sub "") as [t|] eqn:Hp; [|done].
      apply strip_prefix_Some in Hp. intros _. by exists "", t.
    + destruct (strip_prefix sub (String c s)) as [t|] eqn:Hp.
      * apply strip_prefix_Some in Hp. intros _. by exists "", t.
      * intros (before & after & ->)%IH. by exists (String c before), after.
  - intros (before & after & ->).
    induction before as [|c before IH]; simpl.
    + destruct (sub +:+ after) as [|c t] eqn:Heq; simpl.
      * by rewrite (proj2 (strip_prefix_Some sub "" after)).
      * by rewrite (proj2 (strip_prefix_Some sub (String c t) after)).
    + destruct (strip_prefix sub _); [done|]. exact IH.
Qed.

Lemma trim_start_blank (s : string) :
  trim_start s = "" ↔ all_spaces s = true.
Proof.
  induction s as [|c s IH]; simpl; [done|].
  destruct (is_space c); simpl; [done|]. split; discriminate.
Qed.

Lemma trim_start_head (s : string) :
  match trim_start s with
  | String c _ => is_space c = false
  | EmptyString => True
  end.
Proof.
  induction s as [|c s IH]; simpl; [done|].
  destruct (is_space c) eqn:Hc; [done|]. simpl. exact Hc.
Qed.

Lemma trim_end_blank (s : string) :
  trim_end s = "" ↔ all_spaces s = true.
Proof.
  induction s as [|c s IH]; simpl; [done|].
  destruct (trim_end s) as [|d kept] eqn:Hend.
  - destruct IH as [IH _]. rewrite (IH eq_refl), andb_true_r.
    destruct (is_space c); split; done.
  - split; [discriminate|]. intros [_ Hs]%andb_true_iff.
    apply IH in Hs. discriminate Hs.
Qed.

(** [trim] leaves nothing exactly of the strings made of white space. *)
Lemma trim_blank (s : string) : trim s = "" ↔ all_spaces s = true.
Proof.
  unfold trim. rewrite trim_end_blank, <- (trim_start_blank s).
  pose proof (trim_start_head s) as Hhead.
  destruct (trim_start s) as [|c t]; [split; done|].
  simpl. rewrite Hhead. simpl. split; discriminate.
Qed.

(** X1: the status recorded for a value is [missing] exactly when the
    value is empty or white space only; otherwise it is [needs_review]
    exactly when the value contains [TODO:], or contains both a [[] and
    a []] (in any order), and [complete] in every other case. *)
Theorem translation_status_rule (value : string) :
  (translation_status value = missing ↔ all_spaces value = true)
  ∧ (translation_status value = needs_review
     ↔ all_spaces value = false
       ∧ (substring_of "TODO:" value
          ∨ (substring_of "[" value ∧ substring_of "]" value)))
  ∧ (translation_status value = complete
     ↔ all_spaces value = false
       ∧ ¬ substring_of "TODO:" value
       ∧ ¬ (substring_of "[" value ∧ substring_of "]" value)).
Proof.
  unfold translation_status. rewrite <- !includes_spec.
  assert (bool_decide (value = "") || bool_decide (trim value = "")
          = all_spaces value) as ->.
  { destruct (all_spaces value) eqn:Hs.
    - apply trim_blank in Hs. rewrite (bool_decide_eq_true_2 _ Hs).
      apply orb_true_r.
    - rewrite !bool_decide_eq_false_2; [done| |].
      + intros Ht%trim_blank. congruence.
      + intros ->. discriminate Hs. }
  destruct (all_spaces value), (includes "TODO:" value), (includes "[" value),
    (includes "]" value); simpl; intuition congruence.
Qed.

Lemma trim_not_blank (c : ascii) (s : string) :
  is_space c = false → trim (String c s) ≠ "".
Proof. intros Hc Ht%trim_blank. simpl in Ht. by rewrite Hc in Ht. Qed.

(** X2: the two strings the resolver returns in place of a translation,
    [TODO: Translate "<key>"] and [[Object: <key>]], have the status
    [needs_review], whatever the key. *)
Theorem fallbacks_need_review (key : string) :
  translation_status (todo_fallback key) = needs_review
  ∧ translation_status (object_fallback key) = needs_review.
Proof.
  assert (includes "]" (object_fallback key) = true) as Hclose.
  { apply includes_spec. exists ("[Object: " +:+ key), "".
    unfold object_fallback. by rewrite !str_app_assoc. }
  unfold translation_status. split.
  - rewrite !bool_decide_eq_false_2; [done|by apply trim_not_blank|done].
  - rewrite Hclose.
    rewrite !bool_decide_eq_false_2; [|by apply trim_not_blank|done].
    cbn [orb]. by rewrite orb_true_r.
Qed.

(** ** Editing a translation *)

Lemma write_path_lookup (k : string) (rest : list string) (editValue : string)
    (current tree : gmap string Json) :
  write_path k rest editValue current = Written tree →
  "__proto__" ∉ k :: rest →
  tree_lookup (k :: rest) (JObj tree) = Some (JStr editValue).
Proof.
  revert k current tree.
  induction rest as [|k' rest IH]; intros k current tree Hwrite Hproto.
  - simpl in Hwrite. rewrite bool_decide_eq_false_2 in Hwrite
      by (intros ->; apply Hproto; left).
    cbn [andb] in Hwrite.
    assert (<[k:=JStr editValue]> current = tree) as <- by congruence. simpl. by rewrite lookup_insert_eq.
  - assert ("__proto__" ∉ k' :: rest) as Hrest
      by (intros ?; apply Hproto; by right).
    assert (∀ fields,
              match write_path k' rest editValue fields with
              | Written fields' => Written (<[k:=JObj fields']> current)
              | failed => failed
              end = Written tree →
              tree_lookup (k :: k' :: rest) (JObj tree) = Some (JStr editValue))
      as Hdescend.
    { intros fields Hd.
      destruct (write_path k' rest editValue fields) as [fields'| |] eqn:Hw;
        try discriminate Hd.
      injection Hd as <-. cbn [tree_lookup]. rewrite lookup_insert_eq.
      by apply (IH _ _ _ Hw). }
    cbn [write_path] in Hwrite.
    rewrite (bool_decide_eq_false_2 (k' = "__proto__")) in Hwrite by set_solver.
    destruct (current !! k) as [j|].
    + destruct j; try (by apply (Hdescend _ Hwrite));
        destruct (truthy _); try discriminate Hwrite;
        by apply (Hdescend _ Hwrite).
    + destruct (inherited_name k); [discriminate Hwrite|].
      by apply (Hdescend _ Hwrite).
Qed.

Lemma write_path_other (k : string) (rest : list string) (editValue : string)
    (current tree : gmap string Json) (q : list string) :
  write_path k rest editValue current = Written tree →
  branches_off (k :: rest) q = true →
  tree_lookup q (JObj tree) = tree_lookup q (JObj current).
Proof.
  revert k current tree q.
  induction rest as [|k' rest IH]; intros k current tree q Hwrite Hq;
    destruct q as [|b q]; try discriminate Hq; cbn [branches_off] in Hq.
  - case_bool_decide as Hkb; [by destruct q|].
    simpl in Hwrite. case_match; injection Hwrite as <-; [done|].
    simpl. by rewrite lookup_insert_ne.
  - assert (∀ fields,
              tree_lookup (b :: q) (JObj current)
              = (if bool_decide (k = b) then tree_lookup q (JObj fields)
                 else tree_lookup (b :: q) (JObj current)) →
              match write_path k' rest editValue fields with
              | Written fields' => Written (<[k:=JObj fields']> current)
              | failed => failed
              end = Written tree →
              tree_lookup (b :: q) (JObj tree) = tree_lookup (b :: q) (JObj current))
      as Hdescend.
    { intros fields Hold Hd.
      destruct (write_path k' rest editValue fields) as [fields'| |] eqn:Hw;
        try discriminate Hd.
      injection Hd as <-. rewrite Hold. cbn [tree_lookup].
      case_bool_decide as Hkb.
      - subst b. rewrite lookup_insert_eq. by apply (IH _ _ _ _ Hw).
      - by rewrite lookup_insert_ne. }
    assert (∀ j, current !! k = Some j → (∀ fields, j ≠ JObj fields) →
                 tree_lookup (b :: q) (JObj current)
                 = (if bool_decide (k = b) then tree_lookup q (JObj ∅)
                    else tree_lookup (b :: q) (JObj current))) as Hleaf.
    { intros j Hj Hnot. case_bool_decide as Hkb; [|done]. subst b.
      cbn [tree_lookup]. rewrite Hj.
      destruct q as [|b' q]; [by rewrite ?bool_decide_eq_true_2 in Hq|].
      simpl. rewrite lookup_empty. by destruct j as [| | | |fields];
        [..|destruct (Hnot fields)]. }
    cbn [write_path] in Hwrite.
    destruct (current !! k) as [j|] eqn:Hk.
    + assert ((∃ fields, j = JObj fields) ∨ ∀ fields, j ≠ JObj fields)
        as [[fields ->]|Hnot']
        by (destruct j; [right; intros ?; discriminate..|left; eauto]).
      * apply (Hdescend fields); [|done].
        case_bool_decide; [|done]. subst b. cbn [tree_lookup]. by rewrite Hk.
      * destruct (truthy (VJson j)) eqn:Htruthy.
        -- destruct j; try (by destruct (Hnot' _ eq_refl));
             repeat case_match; try discriminate Hwrite;
             by injection Hwrite as <-.
        -- apply (Hdescend ∅); [by apply (Hleaf _ eq_refl)|].
           by destruct j; try (by destruct (Hnot' _ eq_refl)).
    + destruct (inherited_name k); [discriminate Hwrite|].
      apply (Hdescend ∅); [|done].
      case_bool_decide as Hkb; [|done]. subst b. cbn [tree_lookup]. rewrite Hk.
      destruct q as [|b' q]; [by rewrite ?bool_decide_eq_true_2 in Hq|].
      simpl. by rewrite lookup_empty.
Qed.

Lemma saveToStorage_fields (cfg : Config) (s : State) :
  globalTranslations (saveToStorage cfg s) = globalTranslations s
  ∧ translationMetadata (saveToStorage cfg s) = translationMetadata s
  ∧ globalLang (saveToStorage cfg s) = globalLang s
  ∧ globalKeys (saveToStorage cfg s) = globalKeys s.
Proof. unfold saveToStorage. by destruct (enableUI cfg). Qed.

(** What a finished edit has done. *)
Lemma saveEdit_finished (cfg : Config) (now : Z) (key editValue : string)
    (s s' : State) :
  saveEdit cfg now (Some key) editValue s = Finished s' →
  key ≠ "" →
  ∃ k rest tree' metadata,
    split_dot key = k :: rest
    ∧ write_path k rest editValue (tree_of (globalLang s) (globalTranslations s))
      = Written tree'
    ∧ updateTranslationMetadata now key (globalLang s) editValue
        (translationMetadata s) = Some metadata
    ∧ s' = notifySubscribers
             (saveToStorage cfg
                (with_metadata metadata
                   (with_translations
                      (own_set (globalLang s) tree'
                         (own_set (globalLang s)
                            (tree_of (globalLang s) (globalTranslations s))
                            (globalTranslations s))) s))).
Proof.
  intros Hsave Hkey. unfold saveEdit in Hsave.
  rewrite bool_decide_eq_false_2 in Hsave by done.
  destruct (split_dot key) as [|k rest] eqn:Hsplit.
  { destruct (split_dot_cons key) as (? & ? & ?). congruence. }
  cbv zeta in Hsave. unfold tree_of.
  destruct (own_get (globalLang s) (globalTranslations s)) as [tree|];
    [|destruct (inherited_name (globalLang s)); [discriminate Hsave|]];
    cbn [default from_option id];
    (destruct (write_path k rest editValue _) as [tree'| |] eqn:Hwrite;
       try discriminate Hsave;
     destruct (updateTranslationMetadata _ _ _ _ _) as [metadata|];
       try discriminate Hsave;
     exists k, rest, tree', metadata; repeat split; congruence).
Qed.

Lemma own_get_set_twice (lang lang' : string) (tree tree' : gmap string Json)
    (store : Store) :
  own_get lang' (own_set lang tree' (own_set lang tree store))
  = if bool_decide (lang' = lang) then Some tree' else own_get lang' store.
Proof.
  case_bool_decide as Hlang.
  - subst. apply own_get_set_eq.
  - by rewrite !own_get_set_ne.
Qed.

Lemma plain_path_Forall (path : list string) :
  plain_path path = true ↔ Forall (λ k, inherited_name k = false) path.
Proof.
  unfold plain_path. induction path as [|k path IH]; cbn [forallb].
  - split; [constructor|done].
  - rewrite andb_true_iff, negb_true_iff, Forall_cons, IH. done.
Qed.

Lemma plain_path_cons (k : string) (path : list string) :
  plain_path (k :: path) = true →
  inherited_name k = false ∧ k ≠ "__proto__" ∧ plain_path path = true.
Proof.
  intros [Hk Hpath]%andb_true_iff. apply negb_true_iff in Hk.
  split; [done|]. split; [|done]. by intros ->.
Qed.

(** On a path without inherited names the walk of the editor either
    meets a text on its way and fails, or writes. *)
Lemma write_path_plain (k : string) (rest : list string) (editValue : string)
    (current : gmap string Json) :
  plain_path (k :: rest) = true →
  if runs_under_text (k :: rest) (JObj current)
  then write_path k rest editValue current = TypeFails
  else ∃ tree, write_path k rest editValue current = Written tree.
Proof.
  revert k current.
  induction rest as [|k' rest IH]; intros k current Hplain;
    destruct (plain_path_cons _ _ Hplain) as (Hk & Hproto & Hrest).
  - cbn. rewrite bool_decide_eq_false_2 by done. eauto.
  - destruct (plain_path_cons _ _ Hrest) as (_ & Hproto' & _).
    assert (∀ fields,
              if runs_under_text (k' :: rest) (JObj fields)
              then match write_path k' rest editValue fields with
                   | Written fields' => Written (<[k:=JObj fields']> current)
                   | failed => failed
                   end = TypeFails
              else ∃ tree,
                  match write_path k' rest editValue fields with
                  | Written fields' => Written (<[k:=JObj fields']> current)
                  | failed => failed
                  end = Written tree) as Hdescend.
    { intros fields. specialize (IH k' fields Hrest).
      destruct (runs_under_text (k' :: rest) (JObj fields)).
      - by rewrite IH.
      - destruct IH as [tree ->]. eauto. }
    assert (runs_under_text (k' :: rest) (JObj ∅) = false) as Hfresh.
    { cbn. destruct rest; [done|]. by rewrite lookup_empty. }
    pose proof (Hdescend ∅) as Hempty. rewrite Hfresh in Hempty.
    change (runs_under_text (k :: k' :: rest) (JObj current))
      with (match current !! k with
            | Some child =>
                truthy_primitive child || runs_under_text (k' :: rest) child
            | None => false
            end).
    cbn [write_path].
    destruct (current !! k) as [child|].
    + destruct child as [|b|text|text|fields]; unfold truthy_primitive;
        cbn [truthy typeof_object negb andb orb];
        try apply Hdescend; rewrite ?andb_true_r.
      * assert (runs_under_text (k' :: rest) JNull = false) as ->
          by (by destruct rest).
        exact Hempty.
      * assert (runs_under_text (k' :: rest) (JBool b) = false) as ->
          by (by destruct rest).
        destruct b; cbn [orb]; [|exact Hempty].
        by rewrite bool_decide_eq_false_2.
      * assert (runs_under_text (k' :: rest) (JNum text) = false) as ->
          by (by destruct rest).
        destruct (negb (bool_decide (text = "0"))); cbn [orb]; [|exact Hempty].
        by rewrite bool_decide_eq_false_2.
      * assert (runs_under_text (k' :: rest) (JStr text) = false) as ->
          by (by destruct rest).
        destruct (negb (bool_decide (text = ""))); cbn [orb]; [|exact Hempty].
        by rewrite bool_decide_eq_false_2.
    + rewrite Hk. exact Hempty.
Qed.

(** An edit with a key and a language that name nothing inherited
    finishes, unless its key continues below a text. *)
Lemma saveEdit_finishes (cfg : Config) (now : Z) (key editValue : string)
    (s : State) :
  key ≠ "" →
  plain_path (split_dot key) = true →
  inherited_name (globalLang s) = false →
  runs_under_text (split_dot key)
    (JObj (tree_of (globalLang s) (globalTranslations s))) = false →
  ∃ s', saveEdit cfg now (Some key) editValue s = Finished s'.
Proof.
  intros Hkey Hplain Hlang Hclear. unfold saveEdit.
  assert (key ≠ "__proto__") as Hproto by (intros ->; by vm_compute in Hplain).
  rewrite bool_decide_eq_false_2 by done.
  destruct (split_dot key) as [|k rest] eqn:Hsplit; [eauto|].
  cbv zeta. rewrite Hlang.
  pose proof (write_path_plain k rest editValue
                (tree_of (globalLang s) (globalTranslations s)) Hplain) as Hwrite.
  rewrite Hclear in Hwrite. destruct Hwrite as [tree' Hwrite].
  assert (updateTranslationMetadata now key (globalLang s) editValue
            (translationMetadata s) ≠ None) as Hmeta.
  { unfold updateTranslationMetadata. rewrite Hlang.
    rewrite (bool_decide_eq_false_2 (key = "__proto__")) by done.
    by destruct (translationMetadata s !! globalLang s). }
  unfold tree_of in Hwrite.
  destruct (own_get (globalLang s) (globalTranslations s)) as [tree|];
    cbn [default from_option id] in Hwrite; rewrite Hwrite;
    destruct (updateTranslationMetadata _ _ _ _ _); [eauto|done|eauto|done].
Qed.

(** What a key without inherited names resolves to. *)
Lemma resolved_plain (key : string) (s : State) :
  plain_path (split_dot key) = true →
  inherited_name (globalLang s) = false →
  resolved key s
  = match tree_lookup (split_dot key)
            (JObj (tree_of (globalLang s) (globalTranslations s))) with
    | Some j => VJson j
    | None => VUndefined
    end.
Proof.
  intros Hplain%plain_path_Forall Hlang. unfold resolved, read_language, tree_of.
  destruct (own_get (globalLang s) (globalTranslations s)) as [tree|];
    cbn [default from_option id].
  - destruct (tree_lookup (split_dot key) (JObj tree)) as [j|] eqn:Hnode.
    + by apply walk_tree_lookup.
    + by apply walk_miss.
  - rewrite Hlang.
    destruct (split_dot_cons key) as (k & rest & ->).
    cbn. by rewrite lookup_empty.
Qed.

Lemma plain_path_no_proto (path : list string) :
  plain_path path = true → "__proto__" ∉ path.
Proof.
  intros Hplain%plain_path_Forall Hin.
  by rewrite Forall_forall in Hplain; specialize (Hplain _ Hin).
Qed.

(** X3: an edit whose key and active language name nothing objects
    inherit from [Object.prototype], and whose key does not continue
    below a text, finishes, and the resolver then answers the edited key
    with the value typed in, or with the fallback when that value is
    empty. *)
Theorem saveEdit_then_internalT (cfg : Config) (now : Z) (key editValue : string)
    (s : State) :
  key ≠ "" →
  plain_path (split_dot key) = true →
  inherited_name (globalLang s) = false →
  runs_under_text (split_dot key)
    (JObj (tree_of (globalLang s) (globalTranslations s))) = false →
  ∃ s',
    saveEdit cfg now (Some key) editValue s = Finished s'
    ∧ (internalT key ∅ s').1
      = if bool_decide (editValue = "") then todo_fallback key else editValue.
Proof.
  intros Hkey Hplain Hlang Hclear.
  destruct (saveEdit_finishes cfg now key editValue s Hkey Hplain Hlang Hclear)
    as [s' Hsave].
  exists s'. split; [done|].
  pose proof (plain_path_no_proto _ Hplain) as Hproto.
  destruct (saveEdit_finished _ _ _ _ _ _ Hsave Hkey)
    as (k & rest & tree' & metadata & Hsplit & Hwrite & _ & ->).
  rewrite Hsplit in Hproto.
  rewrite internalT_result.
  rewrite (resolved_node _ key tree' (JStr editValue)).
  - cbn. unfold or_else. by case_bool_decide.
  - cbn [notifySubscribers globalLang globalTranslations].
    destruct (saveToStorage_fields cfg
                (with_metadata metadata
                   (with_translations
                      (own_set (globalLang s) tree'
                         (own_set (globalLang s)
                            (tree_of (globalLang s) (globalTranslations s))
                            (globalTranslations s))) s)))
      as (-> & _ & -> & _).
    cbn. rewrite own_get_set_twice. by rewrite bool_decide_eq_true_2.
  - rewrite Hsplit. by apply (write_path_lookup _ _ _ _ _ Hwrite).
Qed.

Lemma saveEdit_then_internalT_witness :
  ∃ s',
    saveEdit MAGIC_CONFIG 7 (Some "nav.about") "Info" editor_state = Finished s'
    ∧ (internalT "nav.about" ∅ s').1 = "Info".
Proof.
  apply (saveEdit_then_internalT MAGIC_CONFIG 7 "nav.about" "Info" editor_state);
    [done|reflexivity..].
Defined.

(** X4: an edit whose key and active language name nothing objects
    inherit from [Object.prototype], and whose key does not continue
    below a text, finishes and changes the edited key only.  Every other
    language keeps its tree; in the active language every path that
    leaves the edited path at some segment names the same node as before;
    and the resolver answers every other key that leaves the edited key
    at some segment, and has no segment named like an inherited property,
    as it did before. *)
Theorem saveEdit_keeps_the_rest (cfg : Config) (now : Z) (key editValue : string)
    (s : State) :
  key ≠ "" →
  plain_path (split_dot key) = true →
  inherited_name (globalLang s) = false →
  runs_under_text (split_dot key)
    (JObj (tree_of (globalLang s) (globalTranslations s))) = false →
  ∃ s',
    saveEdit cfg now (Some key) editValue s = Finished s'
    ∧ (∀ lang, lang ≠ globalLang s →
         own_get lang (globalTranslations s') = own_get lang (globalTranslations s))
    ∧ (∀ q, branches_off (split_dot key) q = true →
         tree_lookup q (JObj (tree_of (globalLang s) (globalTranslations s')))
         = tree_lookup q (JObj (tree_of (globalLang s) (globalTranslations s))))
    ∧ (∀ other vars,
         branches_off (split_dot key) (split_dot other) = true →
         plain_path (split_dot other) = true →
         (internalT other vars s').1 = (internalT other vars s).1).
Proof.
  intros Hkey Hplain Hlang Hclear.
  destruct (saveEdit_finishes cfg now key editValue s Hkey Hplain Hlang Hclear)
    as [s' Hsave].
  exists s'. split; [done|].
  destruct (saveEdit_finished _ _ _ _ _ _ Hsave Hkey)
    as (k & rest & tree' & metadata & Hsplit & Hwrite & _ & ->).
  clear Hsave.
  set (s' := notifySubscribers _).
  assert (globalTranslations s'
          = own_set (globalLang s) tree'
              (own_set (globalLang s)
                 (tree_of (globalLang s) (globalTranslations s))
                 (globalTranslations s)) ∧ globalLang s' = globalLang s)
    as [Htranslations Hsame].
  { unfold s'. cbn [notifySubscribers globalTranslations globalLang].
    match goal with
    | |- context [saveToStorage cfg ?t] =>
        destruct (saveToStorage_fields cfg t) as (-> & _ & -> & _)
    end.
    done. }
  assert (∀ q, branches_off (split_dot key) q = true →
            tree_lookup q (JObj (tree_of (globalLang s) (globalTranslations s')))
            = tree_lookup q (JObj (tree_of (globalLang s) (globalTranslations s))))
    as Hnodes.
  { intros q Hq. rewrite Hsplit in Hq. rewrite Htranslations.
    unfold tree_of at 1. rewrite own_get_set_twice.
    rewrite bool_decide_eq_true_2 by done. cbn [default from_option id].
    by apply (write_path_other _ _ _ _ _ _ Hwrite). }
  split; [|split; [exact Hnodes|]].
  - intros lang Hne. rewrite Htranslations, own_get_set_twice.
    by rewrite bool_decide_eq_false_2.
  - intros other vars Hother Hnames.
    rewrite !internalT_result.
    rewrite (resolved_plain other s') by (by rewrite ?Hsame).
    rewrite (resolved_plain other s) by done.
    by rewrite Hsame, (Hnodes _ Hother).
Qed.

Lemma saveEdit_keeps_the_rest_witness :
  ∃ s',
    saveEdit MAGIC_CONFIG 7 (Some "nav.about") "Info" editor_state = Finished s'
    ∧ (internalT "nav.home" ∅ s').1 = "Start".
Proof.
  destruct (saveEdit_keeps_the_rest MAGIC_CONFIG 7 "nav.about" "Info" editor_state)
    as (s' & Hsave & _ & _ & Hkeys); [done|reflexivity..|].
  exists s'. split; [exact Hsave|].
  etrans; [exact (Hkeys "nav.home" ∅ eq_refl eq_refl)|]. vm_compute. reflexivity.
Defined.

Lemma updateTranslationMetadata_Some (now : Z) (key lang value : string)
    (metadata metadata' : gmap string (gmap string Metadata)) :
  updateTranslationMetadata now key lang value metadata = Some metadata' →
  metadata'
  = <[lang := <[key := {| lastModified := now;
                          characterCount := String.length value;
                          status := translation_status value |}]>
                (default ∅ (metadata !! lang))]> metadata.
Proof.
  unfold updateTranslationMetadata.
  destruct (metadata !! lang) as [of_lang|]; cbn [default from_option id].
  - case_match; congruence.
  - destruct (inherited_name lang); [done|]. case_match; congruence.
Qed.

(** X5: an edit whose key and active language name nothing objects
    inherit from [Object.prototype], and whose key does not continue
    below a text, finishes and records, for the edited key in the active
    language, the time, the length of the value and its status; every
    other record stays as it was. *)
Theorem saveEdit_metadata (cfg : Config) (now : Z) (key editValue : string)
    (s : State) :
  key ≠ "" →
  plain_path (split_dot key) = true →
  inherited_name (globalLang s) = false →
  runs_under_text (split_dot key)
    (JObj (tree_of (globalLang s) (globalTranslations s))) = false →
  ∃ s',
    saveEdit cfg now (Some key) editValue s = Finished s'
    ∧ translationMetadata s' !! globalLang s ≫= (.!! key)
      = Some {| lastModified := now;
                characterCount := String.length editValue;
                status := translation_status editValue |}
    ∧ ∀ lang key', (lang, key') ≠ (globalLang s, key) →
        translationMetadata s' !! lang ≫= (.!! key')
        = translationMetadata s !! lang ≫= (.!! key').
Proof.
  intros Hkey Hplain Hlang Hclear.
  destruct (saveEdit_finishes cfg now key editValue s Hkey Hplain Hlang Hclear)
    as [s' Hsave].
  exists s'. split; [done|].
  destruct (saveEdit_finished _ _ _ _ _ _ Hsave Hkey)
    as (k & rest & tree' & metadata & _ & _ & Hmeta & ->).
  apply updateTranslationMetadata_Some in Hmeta. subst metadata.
  cbn [notifySubscribers translationMetadata].
  match goal with
  | |- context [saveToStorage cfg ?t] =>
      destruct (saveToStorage_fields cfg t) as (_ & -> & _)
  end.
  cbn [with_metadata with_translations translationMetadata]. split.
  - rewrite lookup_insert_eq. cbn. by rewrite lookup_insert_eq.
  - intros lang key' Hne.
    destruct (decide (lang = globalLang s)) as [->|Hother].
    + rewrite lookup_insert_eq. cbn [mbind option_bind].
      rewrite lookup_insert_ne by congruence.
      by destruct (translationMetadata s !! globalLang s).
    + by rewrite lookup_insert_ne.
Qed.

Lemma saveEdit_metadata_witness :
  ∃ s',
    saveEdit MAGIC_CONFIG 7 (Some "nav.about") "TODO: info" editor_state
    = Finished s'
    ∧ translationMetadata s' !! "en" ≫= (.!! "nav.about")
      = Some {| lastModified := 7; characterCount := 10; status := needs_review |}.
Proof.
  destruct (saveEdit_metadata MAGIC_CONFIG 7 "nav.about" "TODO: info" editor_state)
    as (s' & Hsave & Hentry & _); [done|reflexivity..|].
  exists s'. split; [exact Hsave|exact Hentry].
Defined.

Lemma write_path_under_text (k k' : string) (prefix rest : list string)
    (editValue : string) (current : gmap string Json) (child : Json) :
  tree_lookup (k :: prefix) (JObj current) = Some child →
  truthy_primitive child = true →
  k' ≠ "__proto__" →
  write_path k (prefix ++ k' :: rest) editValue current = TypeFails.
Proof.
  intros Hchild Hprimitive Hk'. revert k current Hchild.
  apply andb_true_iff in Hprimitive as [Htruthy Hobject].
  induction prefix as [|p prefix IH]; intros k current Hchild;
    cbn [tree_lookup] in Hchild;
    destruct (current !! k) as [j|] eqn:Hk; try discriminate Hchild.
  - cbn [tree_lookup] in Hchild. injection Hchild as ->.
    cbn [app write_path]. rewrite Hk.
    rewrite Htruthy, bool_decide_eq_false_2 by done.
    by destruct child.
  - destruct j as [| | | |fields]; try discriminate Hchild.
    change ((p :: prefix) ++ k' :: rest) with (p :: (prefix ++ k' :: rest)).
    cbn [write_path]. rewrite Hk. by rewrite (IH _ _ Hchild).
Qed.

(** X6: an edit whose key runs through a translation that is a text
    other than the empty one, a number other than zero or [true] ends in
    a [TypeError]: nothing is written, recorded, persisted or notified. *)
Theorem saveEdit_under_text (cfg : Config) (now : Z) (key editValue : string)
    (s : State) (tree : gmap string Json) (prefix : list string) (k' : string)
    (rest : list string) (child : Json) :
  key ≠ "" →
  own_get (globalLang s) (globalTranslations s) = Some tree →
  split_dot key = prefix ++ k' :: rest →
  tree_lookup prefix (JObj tree) = Some child →
  truthy_primitive child = true →
  k' ≠ "__proto__" →
  saveEdit cfg now (Some key) editValue s = Raised "TypeError" s.
Proof.
  intros Hkey Htree Hsplit Hchild Hprimitive Hk'.
  destruct prefix as [|k prefix]; [by injection Hchild as <-|].
  unfold saveEdit. rewrite bool_decide_eq_false_2 by done.
  rewrite Hsplit. change ((k :: prefix) ++ k' :: rest)
    with (k :: (prefix ++ k' :: rest)).
  cbv zeta. rewrite Htree.
  rewrite (write_path_under_text _ _ _ _ _ _ _ Hchild Hprimitive Hk').
  rewrite (own_set_same _ _ _ Htree). by destruct s.
Qed.

Lemma saveEdit_under_text_witness :
  saveEdit MAGIC_CONFIG 7 (Some "greeting.short") "Hi" en_state
  = Raised "TypeError" en_state.
Proof.
  apply (saveEdit_under_text MAGIC_CONFIG 7 "greeting.short" "Hi" en_state
           en_tree ["greeting"] "short" [] (JStr "Hi, {{name}}!"));
    try done; vm_compute; reflexivity.
Defined.

Lemma module_state_saved (cfg : Config) (s : State) :
  enableUI cfg = true →
  module_state cfg (localStorage (saveToStorage cfg s))
  = Loaded {| globalTranslations := globalTranslations s;
              translationMetadata := translationMetadata s;
              globalLang := stored_lang (localStorage s);
              globalKeys := ∅;
              localStorage := localStorage (saveToStorage cfg s);
              console := [];
              alerts := [];
              notifications := 0;
              pendingLoads := 0 |}.
Proof.
  intros Hui. unfold module_state, saveToStorage. rewrite Hui. reflexivity.
Qed.

(** X7: an edit whose key and active language name nothing objects
    inherit from [Object.prototype], and whose key does not continue
    below a text, finishes, and with the editing interface enabled it is
    persisted: the module evaluated again over the storage the edit
    leaves starts with the translations and the metadata the edit ended
    with.  With the interface disabled the edit leaves the storage as it
    was. *)
Theorem saveEdit_persisted (cfg : Config) (now : Z) (key editValue : string)
    (s : State) :
  key ≠ "" →
  plain_path (split_dot key) = true →
  inherited_name (globalLang s) = false →
  runs_under_text (split_dot key)
    (JObj (tree_of (globalLang s) (globalTranslations s))) = false →
  ∃ s',
    saveEdit cfg now (Some key) editValue s = Finished s'
    ∧ if enableUI cfg then
        ∃ s'', module_state cfg (localStorage s') = Loaded s''
               ∧ globalTranslations s'' = globalTranslations s'
               ∧ translationMetadata s'' = translationMetadata s'
      else localStorage s' = localStorage s.
Proof.
  intros Hkey Hplain Hlang Hclear.
  destruct (saveEdit_finishes cfg now key editValue s Hkey Hplain Hlang Hclear)
    as [s' Hsave].
  exists s'. split; [done|].
  destruct (saveEdit_finished _ _ _ _ _ _ Hsave Hkey)
    as (k & rest & tree' & metadata & _ & _ & _ & ->).
  cbn [notifySubscribers translationMetadata globalTranslations localStorage].
  destruct (enableUI cfg) eqn:Hui.
  - match goal with
    | |- context [saveToStorage cfg ?t] =>
        destruct (saveToStorage_fields cfg t) as (-> & -> & _);
        rewrite (module_state_saved cfg t Hui)
    end.
    eexists. split; [reflexivity|]. by split.
  - unfold saveToStorage. by rewrite Hui.
Qed.

Lemma saveEdit_persisted_witness :
  ∃ s',
    saveEdit MAGIC_CONFIG 7 (Some "nav.about") "Info" editor_state = Finished s'
    ∧ ∃ s'', module_state MAGIC_CONFIG (localStorage s') = Loaded s''
             ∧ globalTranslations s'' = globalTranslations s'
             ∧ translationMetadata s'' = translationMetadata s'.
Proof.
  apply (saveEdit_persisted MAGIC_CONFIG 7 "nav.about" "Info" editor_state);
    [done|reflexivity..].
Defined.

(** ** Languages of the editor *)

Lemma own_get_is_Some {A} (k : string) (o : list (string * A)) :
  is_Some (own_get k o) ↔ k ∈ own_keys o.
Proof.
  rewrite <- not_eq_None_Some, own_get_None.
  destruct (decide (k ∈ own_keys o)); tauto.
Qed.


(** X9: a name of white space only adds no language.  Any other name,
    unless its lower-cased form is [__proto__], gives its lower-cased
    form an empty tree, also when that language had translations; the
    other languages, the metadata and the active language stay, and the
    language is offered from then on. *)
Theorem addLanguage_adds (cfg : Config) (newLang : string) (s : State) :
  (all_spaces newLang = true → addLanguage cfg newLang s = Finished s)
  ∧ (all_spaces newLang = false →
     to_lower newLang ≠ "__proto__" →
     ∃ s',
       addLanguage cfg newLang s = Finished s'
       ∧ own_get (to_lower newLang) (globalTranslations s') = Some ∅
       ∧ (∀ lang, lang ≠ to_lower newLang →
            own_get lang (globalTranslations s')
            = own_get lang (globalTranslations s))
       ∧ to_lower newLang ∈ getAvailableLanguages cfg s'
       ∧ translationMetadata s' = translationMetadata s
       ∧ globalLang s' = globalLang s).
Proof.
  unfold addLanguage. split.
  - intros Hblank%trim_blank. by rewrite bool_decide_eq_true_2.
  - intros Hblank Hproto.
    rewrite bool_decide_eq_false_2 by (intros Ht%trim_blank; congruence).
    cbv zeta. rewrite (bool_decide_eq_false_2 (to_lower newLang = "__proto__"))
      by done.
    cbn [andb]. eexists. split; [reflexivity|].
    assert (own_get (to_lower newLang)
              (globalTranslations
                 (notifySubscribers
                    (saveToStorage cfg
                       (with_translations
                          (own_set (to_lower newLang) ∅ (globalTranslations s))
                          s)))) = Some ∅) as Hnew.
    { cbn [notifySubscribers globalTranslations].
      match goal with
      | |- context [saveToStorage cfg ?t] =>
          destruct (saveToStorage_fields cfg t) as (-> & _)
      end.
      apply own_get_set_eq. }
    split; [exact Hnew|]. split; [|split].
    + intros lang Hlang. cbn [notifySubscribers globalTranslations].
      match goal with
      | |- context [saveToStorage cfg ?t] =>
          destruct (saveToStorage_fields cfg t) as (-> & _)
      end.
      by apply own_get_set_ne.
    + unfold getAvailableLanguages. cbv zeta.
      assert (to_lower newLang ∈ own_keys
                (globalTranslations
                   (notifySubscribers
                      (saveToStorage cfg
                         (with_translations
                            (own_set (to_lower newLang) ∅ (globalTranslations s))
                            s))))) as Hin
        by (apply own_get_is_Some; by rewrite Hnew).
      destruct (own_keys _); [by apply elem_of_nil in Hin|].
      by rewrite andb_false_r.
    + cbn [notifySubscribers translationMetadata globalLang].
      match goal with
      | |- context [saveToStorage cfg ?t] =>
          destruct (saveToStorage_fields cfg t) as (_ & -> & -> & _)
      end.
      done.
Qed.

Lemma addLanguage_adds_witness :
  ∃ s',
    addLanguage MAGIC_CONFIG "EN" editor_state = Finished s'
    ∧ own_get "en" (globalTranslations s') = Some ∅.
Proof.
  destruct (proj2 (addLanguage_adds MAGIC_CONFIG "EN" editor_state))
    as (s' & Hadd & Hnew & _); [reflexivity|done|].
  exists s'. split; [exact Hadd|exact Hnew].
Defined.

(** ** Export *)

Lemma exportTranslations_files (s : State) (store : Store) :
  magic_translations (localStorage s) = JsonItem store →
  store ≠ [] →
  ∃ files,
    exportTranslations s = Exported files s
    ∧ length files = length store
    ∧ ∀ name tree,
        (name, tree) ∈ files
        ↔ ∃ lang, name = lang +:+ ".json" ∧ own_get lang store = Some tree.
Proof.
  intros Hitem Hstore. unfold exportTranslations. rewrite Hitem.
  cbn [parse_item]. cbv zeta.
  destruct (length (own_keys store) =? 0)%nat eqn:Hlen.
  { apply Nat.eqb_eq in Hlen. unfold own_keys in Hlen.
    rewrite length_fmap in Hlen. by destruct store. }
  eexists. split; [reflexivity|]. split.
  { unfold own_keys. by rewrite !length_fmap. }
  intros name tree. rewrite list_elem_of_fmap. split.
  - intros (lang & [= -> ->] & Hlang). exists lang. split; [done|].
    apply own_get_is_Some in Hlang as [tree Htree].
    by rewrite (read_language_own _ _ _ Htree).
  - intros (lang & -> & Htree). exists lang.
    rewrite (read_language_own _ _ _ Htree). split; [done|].
    apply own_get_is_Some. by rewrite Htree.
Qed.

(** X10: with the editing interface enabled, an export that follows an
    edit whose key and active language name nothing inherited, and whose
    key does not continue below a text, writes one file per language of
    the store, named [<language>.json] and holding the tree of that
    language, the edit included; it shows no alert. *)
Theorem export_after_edit (cfg : Config) (now : Z) (key editValue : string)
    (s : State) :
  key ≠ "" →
  plain_path (split_dot key) = true →
  inherited_name (globalLang s) = false →
  runs_under_text (split_dot key)
    (JObj (tree_of (globalLang s) (globalTranslations s))) = false →
  enableUI cfg = true →
  ∃ s' files,
    saveEdit cfg now (Some key) editValue s = Finished s'
    ∧ exportTranslations s' = Exported files s'
    ∧ length files = length (own_keys (globalTranslations s'))
    ∧ (∀ name tree,
         (name, tree) ∈ files
         ↔ ∃ lang, name = lang +:+ ".json"
                   ∧ own_get lang (globalTranslations s') = Some tree)
    ∧ tree_lookup (split_dot key)
        (JObj (tree_of (globalLang s) (globalTranslations s')))
      = Some (JStr editValue).
Proof.
  intros Hkey Hplain Hlang Hclear Hui.
  destruct (saveEdit_finishes cfg now key editValue s Hkey Hplain Hlang Hclear)
    as [s' Hsave].
  destruct (saveEdit_finished _ _ _ _ _ _ Hsave Hkey)
    as (k & rest & tree' & metadata & Hsplit & Hwrite & _ & Hs').
  assert (magic_translations (localStorage s') = JsonItem (globalTranslations s'))
    as Hitem.
  { rewrite Hs'. unfold saveToStorage. rewrite Hui. reflexivity. }
  assert (own_get (globalLang s) (globalTranslations s') = Some tree') as Htree.
  { rewrite Hs'. cbn [notifySubscribers globalTranslations].
    match goal with
    | |- context [saveToStorage cfg ?t] =>
        destruct (saveToStorage_fields cfg t) as (-> & _)
    end.
    cbn. by rewrite own_get_set_eq. }
  assert (globalTranslations s' ≠ []) as Hstore.
  { intros Hnil. by rewrite Hnil in Htree. }
  destruct (exportTranslations_files s' _ Hitem Hstore)
    as (files & Hexport & Hlen & Hfiles).
  exists s', files. split; [done|]. split; [done|]. split; [|split; [done|]].
  - unfold own_keys. by rewrite length_fmap.
  - unfold tree_of. rewrite Htree. cbn [default from_option id].
    rewrite Hsplit. apply (write_path_lookup _ _ _ _ _ Hwrite).
    rewrite <- Hsplit. by apply plain_path_no_proto.
Qed.

Lemma export_after_edit_witness :
  ∃ s' files,
    saveEdit MAGIC_CONFIG 7 (Some "nav.about") "Info" editor_state = Finished s'
    ∧ exportTranslations s' = Exported files s'
    ∧ length files = 2.
Proof.
  destruct (export_after_edit MAGIC_CONFIG 7 "nav.about" "Info" editor_state)
    as (s' & files & Hsave & Hexport & Hlen & _); [done|reflexivity..|].
  exists s', files. split; [exact Hsave|]. split; [exact Hexport|].
  rewrite Hlen.
  assert (Finished s'
          = saveEdit MAGIC_CONFIG 7 (Some "nav.about") "Info" editor_state)
    as Hs' by done.
  vm_compute in Hs'. injection Hs' as ->. reflexivity.
Defined.

(** ** Switching the language *)

(** X11: a switch sets the active language and persists it first, so
    that both hold in the state the call ends with, whether it returns or
    throws in the merge that follows, and a reload then starts in that
    language ([en] for the empty one); the call never touches the
    metadata or the persisted translations.  With the editing interface
    enabled and persisted translations that do not parse it throws a
    [SyntaxError], notifies nobody and leaves the translations in memory
    as they are.  With the interface disabled it reads no persisted
    translations: it returns, leaves the translations in memory as they
    are and notifies once. *)
Theorem setCurrentLang_switches (cfg : Config) (lang : string) (s : State) :
  let s' := completion_state (setCurrentLang cfg lang s) in
  globalLang s' = lang
  ∧ magic_lang (localStorage s') = Some lang
  ∧ stored_lang (localStorage s') = or_else lang "en"
  ∧ magic_translations (localStorage s') = magic_translations (localStorage s)
  ∧ magic_translation_metadata (localStorage s')
    = magic_translation_metadata (localStorage s)
  ∧ translationMetadata s' = translationMetadata s
  ∧ (enableUI cfg = true →
     magic_translations (localStorage s) = BadItem →
     setCurrentLang cfg lang s = Throw "SyntaxError" s'
     ∧ notifications s' = notifications s
     ∧ globalTranslations s' = globalTranslations s)
  ∧ (enableUI cfg = false →
     setCurrentLang cfg lang s = Normal s'
     ∧ notifications s' = S (notifications s)
     ∧ globalTranslations s' = globalTranslations s).
Proof.
  unfold setCurrentLang. cbv zeta.
  cbn [with_lang with_storage with_pending localStorage magic_translations
       globalTranslations pendingLoads].
  destruct (enableUI cfg);
    [destruct (magic_translations (localStorage s)) eqn:Hitem|];
    cbn; repeat split; done.
Qed.

Lemma read_language_set_ne (lang lang' : string) (tree : gmap string Json)
    (store : Store) :
  lang' ≠ lang →
  read_language lang' (own_set lang tree store) = read_language lang' store.
Proof. intros Hne. unfold read_language. by rewrite own_get_set_ne. Qed.

Lemma enumerable_own_tree_of (lang : string) (store : Store) :
  enumerable_own (read_language lang store) = tree_of lang store.
Proof.
  unfold read_language, tree_of. destruct (own_get lang store); [done|].
  destruct (inherited_name lang) eqn:Hname; [|done].
  unfold prototype_member. by repeat case_match.
Qed.

Lemma own_get_merge_stored (stored : Store) (langs : list string) (store : Store)
    (lang : string) :
  own_get lang (foldl (merge_stored stored) store langs)
  = if bool_decide (lang ∈ langs)
    then Some (spread2 (tree_of lang store) (tree_of lang stored))
    else own_get lang store.
Proof.
  revert store. induction langs as [|l langs IH]; intros store; [done|].
  cbn [foldl]. rewrite IH. unfold merge_stored.
  rewrite !enumerable_own_tree_of.
  destruct (decide (lang = l)) as [->|Hne].
  - rewrite (bool_decide_eq_true_2 (l ∈ l :: langs)) by left.
    unfold tree_of at 1. rewrite own_get_set_eq. cbn [default from_option id].
    case_bool_decide; [|done]. f_equal. unfold spread2.
    by rewrite (assoc_L (∪)), (idemp_L (∪)).
  - unfold tree_of at 1. rewrite own_get_set_ne by done.
    fold (tree_of lang store).
    case_bool_decide as Hin.
    + by rewrite bool_decide_eq_true_2 by (by right).
    + rewrite bool_decide_eq_false_2; [done|].
      intros [?|?]%elem_of_cons; done.
Qed.

(** X12: with the editing interface enabled and persisted translations
    that parse, a switch merges them over the translations in memory:
    a persisted language gets the entries in memory with the persisted
    ones over them, top-level key by top-level key, and a language that
    is not persisted keeps its tree. *)
Theorem setCurrentLang_merges (cfg : Config) (lang : string) (s : State)
    (stored : Store) :
  enableUI cfg = true →
  parse_item [] (magic_translations (localStorage s)) = Some stored →
  "__proto__" ∉ own_keys stored →
  ∃ s',
    setCurrentLang cfg lang s = Normal s'
    ∧ ∀ l, own_get l (globalTranslations s')
           = match own_get l stored with
             | Some saved =>
                 Some (spread2 (tree_of l (globalTranslations s)) saved)
             | None => own_get l (globalTranslations s)
             end.
Proof.
  intros Hui Hstored _. unfold setCurrentLang. cbv zeta. rewrite Hui.
  cbn [with_lang with_storage with_pending localStorage magic_translations
       globalTranslations pendingLoads].
  rewrite Hstored. eexists. split; [reflexivity|].
  intros l. cbn [notifySubscribers with_translations globalTranslations].
  rewrite own_get_merge_stored. unfold tree_of at 2.
  destruct (own_get l stored) as [saved|] eqn:Hl.
  - rewrite bool_decide_eq_true_2; [done|].
    apply own_get_is_Some. by rewrite Hl.
  - rewrite bool_decide_eq_false_2; [done|]. by apply own_get_None.
Qed.

Lemma setCurrentLang_merges_witness :
  ∃ s',
    setCurrentLang MAGIC_CONFIG "fr"
      (with_translations [("en", {[ "a" := JStr "new"; "b" := JStr "B" ]})]
         editor_state) = Normal s'
    ∧ own_get "en" (globalTranslations s')
      = Some {[ "a" := JStr "x"; "b" := JStr "B";
                "nav" := JObj {[ "home" := JStr "Start" ]} ]}.
Proof.
  destruct (setCurrentLang_merges MAGIC_CONFIG "fr"
              (with_translations [("en", {[ "a" := JStr "new"; "b" := JStr "B" ]})]
                 editor_state) two_languages) as (s' & Hswitch & Hmerged).
  - reflexivity.
  - reflexivity.
  - vm_compute. intros H. repeat (apply elem_of_cons in H as [H|H]; [done|]).
    by apply elem_of_nil in H.
  - exists s'. split; [exact Hswitch|]. rewrite Hmerged. vm_compute. reflexivity.
Defined.

(** ** The loader and the clean-up *)

Lemma own_get_load_skip (cfg : Config) (source : string → Fetched)
    (langs : list string) (store : Store) (lang : string) :
  (∀ prod, source lang ≠ Body prod) →
  own_get lang (foldl (load_language cfg source) store langs) = own_get lang store.
Proof.
  intros Hskip. revert store.
  induction langs as [|l langs IH]; intros store; [done|].
  cbn [foldl]. rewrite IH.
  destruct (decide (lang = l)) as [->|Hne].
  - by rewrite load_language_skip.
  - by apply own_get_load_language_ne.
Qed.

(** X13: the loader changes the tree of a language only if the language
    is one of the four it fetches and its document arrives: every other
    language, and a language whose fetch fails, is answered with a status
    that is not ok, or has a body that cannot be read, keeps its tree.  The loader
    never touches the metadata, the active language, the registry of keys
    or the storage. *)
Theorem loadProductionTranslations_keeps (cfg : Config)
    (source : string → Fetched) (s : State) (lang : string) :
  lang ∉ languagesToTry ∨ (∀ prod, source lang ≠ Body prod) →
  own_get lang (globalTranslations (loadProductionTranslations cfg source s))
  = own_get lang (globalTranslations s)
  ∧ translationMetadata (loadProductionTranslations cfg source s)
    = translationMetadata s
  ∧ globalLang (loadProductionTranslations cfg source s) = globalLang s
  ∧ globalKeys (loadProductionTranslations cfg source s) = globalKeys s
  ∧ localStorage (loadProductionTranslations cfg source s) = localStorage s.
Proof.
  intros Hlang. split; [|done].
  cbn [loadProductionTranslations notifySubscribers with_translations
       globalTranslations].
  destruct Hlang as [Hout|Hskip].
  - by apply own_get_load_other.
  - by apply own_get_load_skip.
Qed.

Lemma loadProductionTranslations_keeps_witness :
  own_get "fr" (globalTranslations
                  (loadProductionTranslations MAGIC_CONFIG sample_source editor_state))
  = Some {[ "a" := JStr "y" ]}.
Proof.
  destruct (loadProductionTranslations_keeps MAGIC_CONFIG sample_source
              editor_state "fr") as [Hkept _].
  - right. intros prod. vm_compute. discriminate.
  - rewrite Hkept. reflexivity.
Defined.

(** X14: with the editing interface disabled, a language whose document
    arrives gets that document as its tree, whatever it had in memory. *)
Theorem loadProductionTranslations_replaces (cfg : Config)
    (source : string → Fetched) (s : State) (lang : string)
    (base : gmap string Json) :
  enableUI cfg = false →
  lang ∈ languagesToTry →
  source lang = Body base →
  own_get lang (globalTranslations (loadProductionTranslations cfg source s))
  = Some base.
Proof.
  intros Hui Hlang Hbase.
  cbn [loadProductionTranslations notifySubscribers with_translations
       globalTranslations].
  rewrite (own_get_load _ _ _ _ _ _ languagesToTry_NoDup Hlang Hbase).
  unfold loaded_tree. by rewrite Hui.
Qed.

Lemma loadProductionTranslations_replaces_witness :
  own_get "en"
    (globalTranslations
       (loadProductionTranslations {| enableUI := false |} sample_source
          editor_state))
  = Some en_base.
Proof.
  apply (loadProductionTranslations_replaces {| enableUI := false |}
           sample_source editor_state "en" en_base).
  - reflexivity.
  - vm_compute. left.
  - reflexivity.
Defined.

Lemma nonempty_entry_tree (lang : string) (tree : gmap string Json) :
  nonempty_entry (lang, tree) ↔ tree ≠ ∅.
Proof.
  unfold nonempty_entry. cbn. rewrite <- map_size_non_empty_iff. lia.
Qed.

(** X15: the start-up pass keeps exactly the languages whose tree, after
    loading, has at least one key, each with that tree; a language whose
    loaded tree is empty is removed together with its metadata, and the
    metadata of every other language stays. *)
Theorem initializeTranslations_cleans (cfg : Config) (source : string → Fetched)
    (s : State) (lang : string) :
  NoDup (own_keys (globalTranslations s)) →
  let s' := initializeTranslations cfg source s in
  match own_get lang (load_store cfg source (globalTranslations s)) with
  | Some tree =>
      if decide (tree = ∅)
      then own_get lang (globalTranslations s') = None
           ∧ translationMetadata s' !! lang = None
      else own_get lang (globalTranslations s') = Some tree
           ∧ translationMetadata s' !! lang = translationMetadata s !! lang
  | None =>
      own_get lang (globalTranslations s') = None
      ∧ translationMetadata s' !! lang = translationMetadata s !! lang
  end.
Proof.
  intros Hdistinct s'.
  pose proof (initializeTranslations_state cfg source s) as Hstate.
  cbv zeta in Hstate. unfold store_state in Hstate. fold s' in Hstate.
  injection Hstate as Htranslations Hmetadata _.
  rewrite Htranslations, Hmetadata. clear Htranslations Hmetadata.
  pose proof (load_store_NoDup cfg source languagesToTry _ Hdistinct) as Hloaded.
  fold (load_store cfg source (globalTranslations s)) in Hloaded.
  rewrite (filter_languages_to_remove _ Hloaded).
  rewrite (own_get_filter _ _ _ Hloaded), lookup_foldl_delete.
  destruct (own_get lang (load_store cfg source (globalTranslations s)))
    as [tree|] eqn:Hlang.
  - assert (lang ∈ own_keys (load_store cfg source (globalTranslations s)))
      as Hin by (apply own_get_is_Some; by rewrite Hlang).
    destruct (decide (tree = ∅)) as [Hempty|Hentries].
    + rewrite decide_False by (by rewrite nonempty_entry_tree; intros []).
      rewrite decide_True; [done|].
      apply elem_languages_to_remove. split; [done|].
      rewrite (has_entries_spec _ _ _ Hlang), nonempty_entry_tree. by intros [].
    + rewrite decide_True by (by apply nonempty_entry_tree).
      rewrite decide_False; [done|].
      rewrite elem_languages_to_remove, (has_entries_spec _ _ _ Hlang),
        nonempty_entry_tree.
      by intros [_ []].
  - split; [done|]. rewrite decide_False; [done|].
    rewrite elem_languages_to_remove. intros [Hin%own_get_is_Some _].
    rewrite Hlang in Hin. by destruct Hin.
Qed.

Lemma initializeTranslations_cleans_witness :
  own_get "de"
    (globalTranslations (initializeTranslations MAGIC_CONFIG sample_source editor_state))
  = None
  ∧ translationMetadata
      (initializeTranslations MAGIC_CONFIG sample_source editor_state) !! "de"
    = None.
Proof.
  pose proof (initializeTranslations_cleans MAGIC_CONFIG sample_source
                editor_state "de") as Hclean.
  assert (own_get "de" (load_store MAGIC_CONFIG sample_source
                          (globalTranslations editor_state)) = Some ∅) as Hde
    by (vm_compute; reflexivity).
  cbv zeta in Hclean. rewrite Hde in Hclean.
  rewrite decide_True in Hclean by done.
  apply Hclean. apply (bool_decide_unpack _). vm_compute. reflexivity.
Defined.

(** ** Grouping of the keys *)

Lemma groupedKeys_snoc (keys : list string) (key : string) :
  groupedKeys (keys ++ [key]) = add_to_group (groupedKeys keys) key.
Proof. unfold groupedKeys. by rewrite foldl_app. Qed.

Lemma groupedKeys_invariant (keys : list string) :
  match groupedKeys keys with
  | None => Exists (λ key, inherited_name (group_name key) = true) keys
  | Some groups =>
      Forall (λ key, inherited_name (group_name key) = false) keys
      ∧ ∀ name,
          own_get name groups
          = match filter (λ key, group_name key = name) keys with
            | [] => None
            | members => Some members
            end
  end.
Proof.
  induction keys as [|key keys IH] using rev_ind; [by split|].
  rewrite groupedKeys_snoc.
  destruct (groupedKeys keys) as [groups|]; cbn [add_to_group];
    [|apply Exists_app; by left].
  destruct IH as [Hnames Hgroups]. cbv zeta.
  assert (∀ members,
            (∀ name, name = group_name key →
               match filter (λ key, group_name key = name) keys with
               | [] => [key]
               | found => found ++ [key]
               end = members) →
            ∀ name,
              own_get name (own_set (group_name key) members groups)
              = match filter (λ key0, group_name key0 = name) (keys ++ [key]) with
                | [] => None
                | found => Some found
                end) as Hset.
  { intros members Hmembers name. rewrite filter_app, filter_cons, filter_nil.
    destruct (decide (name = group_name key)) as [->|Hne].
    - rewrite own_get_set_eq, decide_True by done.
      rewrite <- (Hmembers _ eq_refl).
      by destruct (filter _ keys).
    - rewrite own_get_set_ne, decide_False, app_nil_r by done. apply Hgroups. }
  destruct (own_get (group_name key) groups) as [members|] eqn:Hown.
  - rewrite Hgroups in Hown.
    assert (inherited_name (group_name key) = false) as Hname.
    { destruct (filter _ keys) as [|k found] eqn:Hfilter; [done|].
      assert (k ∈ filter (λ key0, group_name key0 = group_name key) keys)
        as [Hk Hin]%list_elem_of_filter by (rewrite Hfilter; left).
      rewrite <- Hk. by apply (proj1 (Forall_forall _ _) Hnames). }
    split; [apply Forall_app; split; [done|by constructor]|].
    apply Hset. intros name ->. destruct (filter _ keys); congruence.
  - destruct (inherited_name (group_name key)) eqn:Hname.
    + apply Exists_app. right. by constructor.
    + split; [apply Forall_app; split; [done|by constructor]|].
      apply Hset. intros name ->. rewrite Hgroups in Hown.
      by destruct (filter _ keys).
Qed.

Lemma groupedKeys_NoDup (keys : list string) (groups : list (string * list string)) :
  groupedKeys keys = Some groups → NoDup (own_keys groups).
Proof.
  revert groups.
  induction keys as [|key keys IH] using rev_ind; intros groups Hgroups.
  - injection Hgroups as <-. constructor.
  - rewrite groupedKeys_snoc in Hgroups.
    destruct (groupedKeys keys) as [before|]; [|done].
    cbn [add_to_group] in Hgroups. cbv zeta in Hgroups.
    specialize (IH _ eq_refl).
    destruct (own_get (group_name key) before);
      [|destruct (inherited_name (group_name key)); [done|]];
      injection Hgroups as <-; by apply own_set_NoDup.
Qed.

(** X16: grouping throws exactly when the group of some key (its first
    segment, for a key with a dot) is the name of a property objects
    inherit, such as [constructor].  Otherwise the groups are exactly the
    first segments that occur, plus [ungrouped] if some key has no dot,
    and each group lists the keys of that group in the order given. *)
Theorem groupedKeys_groups (keys : list string) :
  (groupedKeys keys = None
   ↔ Exists (λ key, inherited_name (group_name key) = true) keys)
  ∧ ∀ groups, groupedKeys keys = Some groups →
      NoDup (own_keys groups)
      ∧ ∀ name members,
          own_get name groups = Some members
          ↔ members ≠ [] ∧ members = filter (λ key, group_name key = name) keys.
Proof.
  pose proof (groupedKeys_invariant keys) as Hinv. split.
  - destruct (groupedKeys keys) as [groups|]; [|done].
    destruct Hinv as [Hnames _]. split; [done|].
    intros (key & Hkey & Hname)%Exists_exists.
    rewrite (proj1 (Forall_forall _ _) Hnames key Hkey) in Hname. done.
  - intros groups Hgroups. rewrite Hgroups in Hinv. destruct Hinv as [_ Hinv].
    split; [by apply (groupedKeys_NoDup keys)|].
    intros name members. rewrite Hinv.
    destruct (filter _ keys) as [|k found]; split.
    + done.
    + by intros [? ->].
    + by intros [= <-].
    + by intros [_ ->].
Qed.

Lemma one_group (keys : list string) (groups : list (string * list string)) :
  groupedKeys keys = Some groups →
  length (own_keys groups) ≤ 1
  ↔ ∀ k1 k2, k1 ∈ keys → k2 ∈ keys → group_name k1 = group_name k2.
Proof.
  intros Hgroups.
  pose proof (groupedKeys_NoDup _ _ Hgroups) as Hdistinct.
  pose proof (groupedKeys_invariant keys) as Hinv.
  rewrite Hgroups in Hinv. destruct Hinv as [_ Hinv].
  assert (∀ name, name ∈ own_keys groups
                  ↔ ∃ key, key ∈ keys ∧ group_name key = name) as Hnames.
  { intros name. rewrite <- own_get_is_Some, Hinv. split.
    - destruct (filter _ keys) as [|key found] eqn:Hfilter; [by intros []|].
      intros _.
      assert (key ∈ filter (λ key, group_name key = name) keys)
        as [Hname Hkey]%list_elem_of_filter by (rewrite Hfilter; left).
      by exists key.
    - intros (key & Hkey & Hname).
      assert (key ∈ filter (λ key, group_name key = name) keys) as Hin
        by (by apply list_elem_of_filter).
      destruct (filter _ keys); [by apply elem_of_nil in Hin|done]. }
  split.
  - intros Hlen k1 k2 Hk1 Hk2.
    assert (group_name k1 ∈ own_keys groups) as H1 by (apply Hnames; eauto).
    assert (group_name k2 ∈ own_keys groups) as H2 by (apply Hnames; eauto).
    destruct (own_keys groups) as [|n1 [|n2 names]]; cbn in Hlen; [|..|lia].
    + by apply elem_of_nil in H1.
    + apply list_elem_of_singleton in H1, H2. congruence.
  - intros Hsame.
    destruct (own_keys groups) as [|n1 [|n2 names]] eqn:Hkeys; cbn; [lia..|].
    exfalso.
    assert (n1 ∈ n1 :: n2 :: names) as (k1 & Hk1 & <-)%Hnames by left.
    assert (n2 ∈ group_name k1 :: n2 :: names) as (k2 & Hk2 & <-)%Hnames
      by (right; left).
    apply NoDup_cons in Hdistinct as [Hfirst _].
    apply Hfirst. rewrite (Hsame k1 k2 Hk1 Hk2). left.
Qed.

(** X22: what the panel lists, when it lists keys: all the keys that
    passed the search when the group selected is [all] or the keys make
    one group at most; otherwise the keys of the group selected, in the
    order given (none for a group that does not occur).  A group that is
    itself called [all] can therefore not be shown alone. *)
Theorem displayKeys_shown (keys : list string) (selectedGroup : string)
    (shown : list string) :
  displayKeys keys selectedGroup = Shown shown →
  if bool_decide (selectedGroup = "all")
  then shown = keys
  else
    (∀ k1 k2, k1 ∈ keys → k2 ∈ keys → group_name k1 = group_name k2) ∧ shown = keys
    ∨ (∃ k1 k2, k1 ∈ keys ∧ k2 ∈ keys ∧ group_name k1 ≠ group_name k2)
      ∧ shown = filter (λ key, group_name key = selectedGroup) keys.
Proof.
  unfold displayKeys. intros Hshown.
  destruct (groupedKeys keys) as [groups|] eqn:Hgroups; [|done].
  pose proof (one_group _ _ Hgroups) as Hone.
  pose proof (groupedKeys_invariant keys) as Hinv.
  rewrite Hgroups in Hinv. destruct Hinv as [_ Hinv].
  case_bool_decide as Hall.
  { rewrite orb_true_r in Hshown. congruence. }
  rewrite orb_false_r in Hshown.
  destruct (length (own_keys groups) <=? 1)%nat eqn:Hlen.
  - apply Nat.leb_le in Hlen. left. split; [by apply Hone|congruence].
  - apply Nat.leb_gt in Hlen. right. split.
    + destruct (own_keys groups) as [|n1 [|n2 names]] eqn:Hkeys;
        cbn in Hlen; [lia..|].
      pose proof (groupedKeys_NoDup _ _ Hgroups) as Hdistinct.
      rewrite Hkeys in Hdistinct. apply NoDup_cons in Hdistinct as [Hfirst _].
      assert (is_Some (own_get n1 groups)) as H1
        by (apply own_get_is_Some; rewrite Hkeys; left).
      assert (is_Some (own_get n2 groups)) as H2
        by (apply own_get_is_Some; rewrite Hkeys; right; left).
      rewrite Hinv in H1, H2.
      destruct (filter (λ key, group_name key = n1) keys) as [|k1 ?] eqn:Hf1;
        [by destruct H1|].
      destruct (filter (λ key, group_name key = n2) keys) as [|k2 ?] eqn:Hf2;
        [by destruct H2|].
      assert (k1 ∈ filter (λ key, group_name key = n1) keys)
        as [Hg1 Hk1]%list_elem_of_filter by (rewrite Hf1; left).
      assert (k2 ∈ filter (λ key, group_name key = n2) keys)
        as [Hg2 Hk2]%list_elem_of_filter by (rewrite Hf2; left).
      exists k1, k2. repeat split; [done..|].
      rewrite Hg1, Hg2. intros ->. apply Hfirst. left.
    + rewrite Hinv in Hshown.
      destruct (filter _ keys); [|congruence].
      destruct (inherited_name selectedGroup); [done|congruence].
Qed.

Lemma displayKeys_shown_witness :
  ["nav.home"; "nav.about"]
  = filter (λ key, group_name key = "nav") ["nav.home"; "all.title"; "nav.about"].
Proof.
  pose proof (displayKeys_shown ["nav.home"; "all.title"; "nav.about"] "nav"
                ["nav.home"; "nav.about"] eq_refl) as Hshown.
  rewrite bool_decide_eq_false_2 in Hshown by done.
  destruct Hshown as [[Hsame _]|[_ Hshown]]; [|exact Hshown].
  exfalso.
  assert (group_name "nav.home" = group_name "all.title") as Hnames.
  { apply Hsame; [left|right; left]. }
  vm_compute in Hnames. discriminate Hnames.
Defined.

(** ** More on the resolver *)

(** X17: a call of the resolver adds its key to the registry and, when
    the key names a branch, one line to the console; it changes nothing
    else: not the translations, the metadata, the storage or the active
    language, and it notifies nobody. *)
Theorem internalT_only_registers (key : string) (vars : gmap string VarValue)
    (s : State) :
  let s' := (internalT key vars s).2 in
  globalKeys s' = {[ key ]} ∪ globalKeys s
  ∧ store_state s' = store_state s
  ∧ globalLang s' = globalLang s
  ∧ notifications s' = notifications s
  ∧ alerts s' = alerts s
  ∧ pendingLoads s' = pendingLoads s
  ∧ console s'
    = if negb (is_nullish (resolved key s)) && typeof_object (resolved key s)
      then console s ++ [object_warning key]
      else console s.
Proof.
  unfold internalT, resolved. cbv zeta.
  cbn [with_keys globalLang globalTranslations].
  destruct (is_nullish _); [done|].
  destruct (typeof_object _); [done|].
  by destruct (_ && _).
Qed.

(** X18: a leaf that is a number or a boolean is answered with its
    text, whatever the variables: a number with the text its [toString]
    gives, which is never empty, so that [0] is answered with [0]; a
    boolean with [true] or [false].  A leaf that is [null] is answered
    with the fallback. *)
Theorem internalT_scalar_leaf (s : State) (key : string)
    (vars : gmap string VarValue) (tree : gmap string Json) (leaf : Json) :
  own_get (globalLang s) (globalTranslations s) = Some tree →
  tree_lookup (split_dot key) (JObj tree) = Some leaf →
  match leaf with
  | JNum text => text ≠ "" → (internalT key vars s).1 = text
  | JBool b => (internalT key vars s).1 = if b then "true" else "false"
  | JNull => (internalT key vars s).1 = todo_fallback key
  | JStr _ | JObj _ => True
  end.
Proof.
  intros Hlang Hleaf. rewrite internalT_result.
  rewrite (resolved_node _ _ _ _ Hlang Hleaf).
  destruct leaf as [|[]|text| |]; try done. intros Htext. cbn.
  unfold or_else. by rewrite bool_decide_eq_false_2.
Qed.

Lemma internalT_scalar_leaf_witness :
  (internalT "count" {[ "name" := VarStr "Sam" ]}
     (state_of [("en", {[ "count" := JNum "0" ]})] "en")).1 = "0".
Proof.
  apply (internalT_scalar_leaf (state_of [("en", {[ "count" := JNum "0" ]})] "en")
           "count" {[ "name" := VarStr "Sam" ]} {[ "count" := JNum "0" ]}
           (JNum "0")); [reflexivity|reflexivity|discriminate].
Defined.

(** ** Removing a language that is not the last *)

Lemma own_get_delete {A} (k k' : string) (o : list (string * A)) :
  own_get k' (own_delete k o) = if bool_decide (k' = k) then None else own_get k' o.
Proof.
  unfold own_delete. induction o as [|[l v] o IH]; [by case_bool_decide|].
  rewrite filter_cons. cbn [fst own_get].
  destruct (decide (l ≠ k)) as [Hl|Hl].
  - cbn [own_get]. rewrite IH. repeat case_bool_decide; congruence.
  - apply dec_stable in Hl. subst l. rewrite IH.
    repeat case_bool_decide; congruence.
Qed.

(** X20: with more than one language in the store, removing a language
    that is not the active one, once confirmed, deletes its tree and
    nothing else: the other languages keep theirs, the active language
    stays, the subscribers are notified once, and with the editing
    interface enabled the store is persisted as it then is.  Without the
    confirmation nothing happens at all. *)
Theorem removeLanguage_inactive (cfg : Config) (langToRemove : string)
    (s : State) :
  1 < length (own_keys (globalTranslations s)) →
  langToRemove ≠ globalLang s →
  removeLanguage cfg false langToRemove s = Normal s
  ∧ ∃ s',
      removeLanguage cfg true langToRemove s = Normal s'
      ∧ (∀ lang, own_get lang (globalTranslations s')
                 = if bool_decide (lang = langToRemove) then None
                   else own_get lang (globalTranslations s))
      ∧ globalLang s' = globalLang s
      ∧ notifications s' = S (notifications s)
      ∧ (if enableUI cfg
         then magic_translations (localStorage s')
              = JsonItem (globalTranslations s')
         else localStorage s' = localStorage s).
Proof.
  intros Hmany Hactive. unfold removeLanguage.
  destruct (length (own_keys (globalTranslations s)) <=? 1)%nat eqn:Hlen;
    [apply Nat.leb_le in Hlen; lia|].
  split; [done|]. cbv zeta.
  cbn [with_translations globalLang globalTranslations].
  rewrite bool_decide_eq_false_2 by done.
  eexists. split; [reflexivity|].
  unfold saveToStorage. destruct (enableUI cfg); cbn;
    (split; [intros lang; apply own_get_delete|done]).
Qed.

Lemma removeLanguage_inactive_witness :
  ∃ s',
    removeLanguage MAGIC_CONFIG true "fr" editor_state = Normal s'
    ∧ own_get "fr" (globalTranslations s') = None
    ∧ own_get "en" (globalTranslations s')
      = Some {[ "a" := JStr "x"; "nav" := JObj {[ "home" := JStr "Start" ]} ]}.
Proof.
  destruct (removeLanguage_inactive MAGIC_CONFIG "fr" editor_state)
    as (_ & s' & Hremove & Htrees & _).
  - vm_compute. lia.
  - done.
  - exists s'. split; [exact Hremove|]. by rewrite !Htrees.
Defined.

(** X21: with the editing interface enabled, removing the active
    language does not remove it when the persisted translations still
    hold it: the switch to the first remaining language merges the
    persisted translations back, so that the call ends with the language
    in the store again, with the tree that was persisted, and persists
    the store with it. *)
Theorem removeLanguage_active_returns (cfg : Config) (langToRemove : string)
    (s : State) (stored : Store) (saved : gmap string Json) :
  enableUI cfg = true →
  globalLang s = langToRemove →
  1 < length (own_keys (globalTranslations s)) →
  NoDup (own_keys (globalTranslations s)) →
  magic_translations (localStorage s) = JsonItem stored →
  own_get langToRemove stored = Some saved →
  "__proto__" ∉ own_keys stored →
  ∃ first s',
    removeLanguage cfg true langToRemove s = Normal s'
    ∧ head (own_keys (own_delete langToRemove (globalTranslations s)))
      = Some first
    ∧ globalLang s' = first
    ∧ first ≠ langToRemove
    ∧ own_get langToRemove (globalTranslations s') = Some saved
    ∧ magic_translations (localStorage s') = JsonItem (globalTranslations s').
Proof.
  intros Hui Hactive Hmany Hdistinct Hstored Hsaved _. unfold removeLanguage.
  destruct (length (own_keys (globalTranslations s)) <=? 1)%nat eqn:Hlen;
    [apply Nat.leb_le in Hlen; lia|].
  cbv zeta. cbn [with_translations globalLang globalTranslations].
  rewrite bool_decide_eq_true_2 by done.
  destruct (own_keys (own_delete langToRemove (globalTranslations s)))
    as [|first others] eqn:Hkeys.
  { exfalso. unfold own_keys, own_delete in *.
    destruct (globalTranslations s) as [|[k1 v1] [|[k2 v2] store]];
      cbn in Hmany; try lia.
    apply NoDup_cons in Hdistinct as [Hk1 _]. cbn in Hk1.
    rewrite !filter_cons in Hkeys. cbn [fst] in Hkeys.
    destruct (decide (k1 ≠ langToRemove)) as [|Hone]; [done|].
    destruct (decide (k2 ≠ langToRemove)) as [|Htwo]; [done|].
    apply dec_stable in Hone, Htwo. subst. apply Hk1. left. }
  assert (first ≠ langToRemove) as Hfirst.
  { assert (first ∈ own_keys (own_delete langToRemove (globalTranslations s)))
      as Hin by (rewrite Hkeys; left).
    unfold own_keys, own_delete in Hin.
    apply list_elem_of_fmap in Hin as ([k v] & -> & [Hk _]%list_elem_of_filter).
    done. }
  unfold setCurrentLang. cbv zeta. rewrite Hui.
  cbn [with_lang with_storage with_pending with_translations localStorage
       magic_translations globalTranslations pendingLoads].
  rewrite Hstored. cbn [parse_item].
  eexists first, _. split; [reflexivity|].
  split; [done|].
  unfold saveToStorage. rewrite Hui. cbn. repeat split; try done.
  rewrite own_get_merge_stored.
  rewrite bool_decide_eq_true_2 by (apply own_get_is_Some; by rewrite Hsaved).
  unfold tree_of. rewrite own_get_delete, bool_decide_eq_true_2 by done.
  rewrite Hsaved. cbn. unfold spread2. by rewrite (right_id_L ∅ (∪)).
Qed.

Lemma removeLanguage_active_returns_witness :
  ∃ first s',
    removeLanguage MAGIC_CONFIG true "en" editor_state = Normal s'
    ∧ head (own_keys (own_delete "en" (globalTranslations editor_state)))
      = Some first
    ∧ globalLang s' = first
    ∧ first ≠ "en"
    ∧ own_get "en" (globalTranslations s')
      = Some {[ "a" := JStr "x"; "nav" := JObj {[ "home" := JStr "Start" ]} ]}
    ∧ magic_translations (localStorage s') = JsonItem (globalTranslations s').
Proof.
  apply (removeLanguage_active_returns MAGIC_CONFIG "en" editor_state
           two_languages).
  - reflexivity.
  - reflexivity.
  - vm_compute. lia.
  - apply (bool_decide_unpack _). vm_compute. reflexivity.
  - reflexivity.
  - reflexivity.
  - vm_compute. intros H. repeat (apply elem_of_cons in H as [H|H]; [done|]).
    by apply elem_of_nil in H.
Defined.

(** ** The order of the languages *)

Lemma own_keys_load (cfg : Config) (source : string → Fetched)
    (langs : list string) (store : Store) :
  Forall (λ lang, array_index lang = None) langs →
  NoDup langs →
  own_keys (foldl (load_language cfg source) store langs)
  = own_keys store
    ++ filter (λ lang, (lang ∉ own_keys store) ∧ fetched_ok source lang = true)
         langs.
Proof.
  intros Hnames Hdistinct. revert store.
  induction Hdistinct as [|l langs Hl Hdistinct IH]; intros store.
  { by rewrite filter_nil, app_nil_r. }
  apply Forall_cons in Hnames as [Hindex Hnames].
  cbn [foldl]. rewrite (IH Hnames). rewrite filter_cons.
  destruct (fetched_ok source l) eqn:Hok; unfold fetched_ok in Hok.
  2:{ rewrite load_language_skip by (intros prod Hprod; by rewrite Hprod in Hok).
      rewrite decide_False; [done|]. by intros [_ ?]. }
  destruct (source l) as [| | |prod] eqn:Hsource; try discriminate Hok.
  rewrite (load_language_body _ _ _ _ _ Hsource). unfold own_set.
  destruct (own_get l store) as [tree|] eqn:Hown.
  - rewrite own_keys_replace.
    rewrite decide_False; [done|].
    intros [Hnot _]. apply Hnot, own_get_is_Some. by rewrite Hown.
  - unfold own_add. rewrite Hindex.
    rewrite decide_True by (split; [by apply own_get_None|done]).
    assert (∀ tree, own_keys (store ++ [(l, tree)]) = own_keys store ++ [l])
      as Hkeys by (intros tree; unfold own_keys; by rewrite fmap_app).
    rewrite !Hkeys, <- (assoc_L (++)). cbn [app]. do 2 f_equal.
    apply filter_ext_elem. intros lang Hlang.
    rewrite not_elem_of_app, list_elem_of_singleton.
    assert (lang ≠ l) by (by intros ->). tauto.
Qed.

(** X23: the loader keeps the languages of the store in their places
    and appends the languages it adds in the order it fetches them:
    [en], [fr], [es], [de], as far as they were not in the store and
    their documents arrive. *)
Theorem loadProductionTranslations_order (cfg : Config)
    (source : string → Fetched) (s : State) :
  own_keys (globalTranslations (loadProductionTranslations cfg source s))
  = own_keys (globalTranslations s)
    ++ filter (λ lang, (lang ∉ own_keys (globalTranslations s))
                       ∧ fetched_ok source lang = true)
         languagesToTry.
Proof.
  cbn [loadProductionTranslations notifySubscribers with_translations
       globalTranslations].
  apply own_keys_load; [|apply languagesToTry_NoDup].
  by repeat constructor.
Qed.

(** ** Across the functions *)

Lemma empty_language_cleaned (cfg : Config) (source : string → Fetched)
    (lang : string) (s : State) :
  NoDup (own_keys (globalTranslations s)) →
  default ∅ (own_get lang (globalTranslations s)) = ∅ →
  lang ∉ languagesToTry ∨ fetched_ok source lang = false →
  own_get lang (globalTranslations (initializeTranslations cfg source s)) = None.
Proof.
  intros Hdistinct Hempty Hsource.
  pose proof (initializeTranslations_state cfg source s) as Hstate.
  cbv zeta in Hstate. unfold store_state in Hstate.
  injection Hstate as Htranslations _ _. rewrite Htranslations.
  clear Htranslations.
  pose proof (load_store_NoDup cfg source languagesToTry _ Hdistinct) as Hloaded.
  fold (load_store cfg source (globalTranslations s)) in Hloaded.
  assert (own_get lang (load_store cfg source (globalTranslations s))
          = own_get lang (globalTranslations s)) as Hkept.
  { unfold load_store. destruct Hsource as [Hout|Hfails].
    - by rewrite own_get_load_other.
    - rewrite own_get_load_skip; [done|].
      intros prod Hprod. unfold fetched_ok in Hfails. by rewrite Hprod in Hfails. }
  rewrite (filter_languages_to_remove _ Hloaded).
  rewrite (own_get_filter _ _ _ Hloaded), Hkept.
  destruct (own_get lang (globalTranslations s)) as [tree|]; [|done].
  cbn in Hempty. subst tree.
  rewrite decide_False; [done|]. rewrite nonempty_entry_tree. by intros [].
Qed.

(** X24: a language added in the editor does not survive a reload
    unless a document arrives for it: the module evaluated again over the
    storage the editor leaves starts the language with an empty tree, if
    at all, and the start-up pass removes it. *)
Theorem added_language_is_cleaned (cfg : Config) (source : string → Fetched)
    (newLang : string) (s s' reloaded : State) :
  addLanguage cfg newLang s = Finished s' →
  all_spaces newLang = false →
  NoDup (own_keys (globalTranslations s)) →
  to_lower newLang ∉ languagesToTry ∨ fetched_ok source (to_lower newLang) = false →
  module_state cfg (localStorage s') = Loaded reloaded →
  own_get (to_lower newLang)
    (globalTranslations (initializeTranslations cfg source reloaded)) = None.
Proof.
  intros Hadd Hblank Hdistinct Hsource Hreload. unfold addLanguage in Hadd.
  rewrite bool_decide_eq_false_2 in Hadd by (intros Ht%trim_blank; congruence).
  cbv zeta in Hadd. case_match; [discriminate Hadd|]. injection Hadd as <-.
  cbn [notifySubscribers localStorage] in Hreload.
  destruct (enableUI cfg) eqn:Hui.
  - rewrite (module_state_saved _ _ Hui) in Hreload. injection Hreload as <-.
    apply empty_language_cleaned; cbn; [by apply own_set_NoDup| |done].
    by rewrite own_get_set_eq.
  - unfold module_state in Hreload. rewrite Hui in Hreload.
    injection Hreload as <-.
    apply empty_language_cleaned; cbn; [constructor|done..].
Qed.

Lemma added_language_is_cleaned_witness :
  ∃ reloaded,
    module_state MAGIC_CONFIG
      (localStorage
         (state_after (addLanguage MAGIC_CONFIG "IT" editor_state) editor_state))
    = Loaded reloaded
    ∧ own_get "it"
        (globalTranslations
           (initializeTranslations MAGIC_CONFIG sample_source reloaded))
      = None.
Proof.
  eexists. split; [reflexivity|].
  apply (added_language_is_cleaned MAGIC_CONFIG sample_source "IT" editor_state
           (state_after (addLanguage MAGIC_CONFIG "IT" editor_state) editor_state)).
  - vm_compute. reflexivity.
  - reflexivity.
  - apply (bool_decide_unpack _). vm_compute. reflexivity.
  - right. reflexivity.
  - reflexivity.
Defined.

(** X25: with the editing interface disabled the module starts with an
    empty store, whatever is persisted: until the loader has run, the
    resolver answers every key with the fallback. *)
Theorem fallback_before_load (cfg : Config) (ls : Storage) (s : State)
    (key : string) (vars : gmap string VarValue) :
  module_state cfg ls = Loaded s →
  enableUI cfg = false →
  stored_lang ls ≠ "__proto__" →
  (internalT key vars s).1 = todo_fallback key.
Proof.
  intros Hstart Hui Hlang. unfold module_state in Hstart.
  rewrite Hui in Hstart. injection Hstart as <-.
  by apply internalT_unknown_language.
Qed.

Lemma fallback_before_load_witness :
  ∃ s, module_state {| enableUI := false |} (localStorage editor_state) = Loaded s
       ∧ (internalT "a" ∅ s).1 = todo_fallback "a".
Proof.
  eexists. split; [reflexivity|].
  apply (fallback_before_load {| enableUI := false |} (localStorage editor_state));
    [reflexivity|reflexivity|done].
Defined.

Lemma merge_stored_same (store : Store) (langs : list string) :
  langs ⊆ own_keys store →
  foldl (merge_stored store) store langs = store.
Proof.
  induction langs as [|l langs IH]; intros Hlangs; [done|].
  cbn [foldl].
  assert (merge_stored store store l = store) as ->.
  { assert (l ∈ own_keys store) as [tree Htree]%own_get_is_Some
      by (apply Hlangs; left).
    unfold merge_stored. rewrite (read_language_own _ _ _ Htree).
    cbn [enumerable_own]. unfold spread2. rewrite (idemp_L (∪)).
    by apply own_set_same. }
  apply IH. intros l' Hl'. apply Hlangs. by right.
Qed.

(** X26: with the editing interface enabled, a switch made while the
    persisted translations are the ones in memory, as after every save,
    changes no translation: the merge gives back the store as it was,
    order included. *)
Theorem setCurrentLang_in_sync (cfg : Config) (lang : string) (s : State) :
  enableUI cfg = true →
  magic_translations (localStorage s) = JsonItem (globalTranslations s) →
  "__proto__" ∉ own_keys (globalTranslations s) →
  ∃ s',
    setCurrentLang cfg lang s = Normal s'
    ∧ globalTranslations s' = globalTranslations s
    ∧ globalLang s' = lang.
Proof.
  intros Hui Hstored _. unfold setCurrentLang. cbv zeta. rewrite Hui.
  cbn [with_lang with_storage with_pending localStorage magic_translations
       globalTranslations pendingLoads].
  rewrite Hstored. cbn [parse_item]. eexists. split; [reflexivity|].
  cbn [notifySubscribers with_translations globalTranslations globalLang
       with_pending with_storage with_lang].
  by rewrite merge_stored_same.
Qed.

Lemma setCurrentLang_in_sync_witness :
  ∃ s',
    setCurrentLang MAGIC_CONFIG "fr" editor_state = Normal s'
    ∧ globalTranslations s' = two_languages
    ∧ globalLang s' = "fr".
Proof.
  apply (setCurrentLang_in_sync MAGIC_CONFIG "fr" editor_state).
  - reflexivity.
  - reflexivity.
  - vm_compute. intros H. repeat (apply elem_of_cons in H as [H|H]; [done|]).
    by apply elem_of_nil in H.
Defined.
